(** * SSCore: object maps, the nearby-star importers and angle parsing

    A shallow embedding of [SSObject.cpp] (object maps), [SSImportGJ.cpp]
    (the Gliese-Jahreiss importers) and the angle parser of
    [SSUtilities.cpp], with the properties of the catalog fusion pipeline
    stated and proved over it.

    Conventions.
    - [int] values are integers in [Z]; signed overflow is undefined in C++
      and is a fault of the model.
    - [double] values are binary64 floats ([PrimFloat]).  The proper-motion
      conversions are written over an arithmetic, which is binary64 for
      the source and the real numbers for exact arithmetic.
    - Objects live in a heap indexed by locations; collections hold
      pointers, so aliasing is visible.
    - A computation of type [option A] faults with [None]: a dereference
      of an unallocated pointer, a vector access out of range, a signed
      overflow or an exception that nothing catches. *)

From Stdlib Require Import ZArith PrimFloat Ascii String.
From Stdlib Require Uint63.
From Stdlib Require Reals Lra.
From stdpp Require Import gmap strings list sorting.

Local Open Scope Z_scope.

(** ** Machine integers *)

Definition INT_MAX : Z := 2147483647.

Definition INT_MIN : Z := -2147483648.

(** [a + b] on [int]: defined only when the result fits. *)
Definition int_add (a b : Z) : option Z :=
  if decide (INT_MIN ≤ a + b ≤ INT_MAX) then Some (a + b) else None.

(** [(int) n] for a [size_t] value [n]: the low 32 bits, read as signed. *)
Definition int_of_size (n : nat) : Z :=
  (Z.of_nat n + 2 ^ 31) `mod` 2 ^ 32 - 2 ^ 31.

(** ** Identifiers *)

(** Modelled from the spec: the catalog enumeration is declared in
    [SSIdentifier.hpp], which is not among the sources.  These are the tags
    the sources and the spec name, and the tag of the null identifier. *)
Inductive SSCatalog :=
  | kCatUnknown
  | kCatBayer
  | kCatFlamsteed
  | kCatGCVS
  | kCatGJ
  | kCatHD
  | kCatDM
  | kCatHIP.

Definition catalog_code (c : SSCatalog) : nat :=
  match c with
  | kCatUnknown => 0 | kCatBayer => 1 | kCatFlamsteed => 2 | kCatGCVS => 3
  | kCatGJ => 4 | kCatHD => 5 | kCatDM => 6 | kCatHIP => 7
  end%nat.

Definition catalog_of_code (n : nat) : SSCatalog :=
  match n with
  | 1 => kCatBayer | 2 => kCatFlamsteed | 3 => kCatGCVS | 4 => kCatGJ
  | 5 => kCatHD | 6 => kCatDM | 7 => kCatHIP | _ => kCatUnknown
  end%nat.

#[global] Instance SSCatalog_eq_dec : EqDecision SSCatalog.
Proof. solve_decision. Defined.

#[global] Instance SSCatalog_countable : Countable SSCatalog.
Proof. by apply (inj_countable' catalog_code catalog_of_code); intros []. Defined.

(** Modelled from the spec: [SSIdentifier] is declared outside the sources.
    It is a catalog tag with a payload, built by [SSIdentifier ( cat, n )]
    as [SSImportGJCNS3] does for HD numbers; the default-constructed
    identifier is the null one, the only identifier that tests false. *)
Record SSIdentifier := mkIdentifier {
  ident_catalog : SSCatalog;
  ident_number : Z
}.

#[global] Instance SSIdentifier_eq_dec : EqDecision SSIdentifier.
Proof. solve_decision. Defined.

#[global] Instance SSIdentifier_countable : Countable SSIdentifier.
Proof.
  by apply (inj_countable' (λ i, (ident_catalog i, ident_number i))
                           (λ p, mkIdentifier p.1 p.2)); intros [].
Defined.

Definition SSIdentifier_null : SSIdentifier := mkIdentifier kCatUnknown 0.

(** [if ( ident )]: the validity test. *)
Definition ident_valid (ident : SSIdentifier) : bool :=
  bool_decide (ident ≠ SSIdentifier_null).

(** Modelled from the spec: [SSAddIdentifier] is defined outside the
    sources; it is the "add if not already present" operation, and an
    invalid identifier is never inserted. *)
Definition SSAddIdentifier (ident : SSIdentifier) (idents : list SSIdentifier)
  : list SSIdentifier :=
  if ident_valid ident && negb (bool_decide (ident ∈ idents))
  then idents ++ [ident]
  else idents.

(** ** Stars and objects *)

Record SSSpherical := mkSpherical {
  lon : float;
  lat : float;
  rad : float
}.

(** Modelled from the spec: [SSStar] is declared outside the sources.  A
    stellar entry carries its names, its identifier set, its position and
    motion in the fundamental frame, two magnitudes and a spectral type;
    the distance is [rad] of the position and the radial velocity is [rad]
    of the motion, infinite when unknown. *)
Record SSStar := mkStar {
  star_names : list string;
  star_idents : list SSIdentifier;
  star_coords : SSSpherical;
  star_motion : SSSpherical;
  star_Vmag : float;
  star_Bmag : float;
  star_spectrum : string
}.

(** An object is a star or an object of another type, which keeps the
    defaults of the base class. *)
Inductive SSObject :=
  | ObjStar (s : SSStar)
  | ObjOther.

(** Modelled from the spec: [SSStar::getIdentifier] is defined outside the
    sources; it is the star's identifier under the catalog tag, or the null
    identifier when the star has none. *)
Fixpoint SSStar_getIdentifier (idents : list SSIdentifier) (cat : SSCatalog)
  : SSIdentifier :=
  match idents with
  | [] => SSIdentifier_null
  | ident :: rest =>
      if decide (ident_catalog ident = cat) then ident
      else SSStar_getIdentifier rest cat
  end.

(** [SSObject::getIdentifier]: the base class returns the null identifier,
    stars override it. *)
Definition getIdentifier (obj : SSObject) (cat : SSCatalog) : SSIdentifier :=
  match obj with
  | ObjStar s => SSStar_getIdentifier (star_idents s) cat
  | ObjOther => SSIdentifier_null
  end.

(** ** Pointers, collections and the heap *)

Abbreviation loc := nat.

Inductive SSObjectPtr :=
  | nullptr
  | ptr (l : loc).

#[global] Instance SSObjectPtr_eq_dec : EqDecision SSObjectPtr.
Proof. solve_decision. Defined.

Abbreviation heap := (gmap nat SSObject).
Abbreviation SSObjectVec := (list SSObjectPtr).
Abbreviation SSObjectMap := (gmap SSIdentifier Z).

(** [new T ( obj )]: a location that is not allocated yet. *)
Definition heap_new (obj : SSObject) (h : heap) : loc * heap :=
  let l := fresh (dom h) in (l, <[l := obj]> h).

(** [SSGetStarPtr]: the downcast gives the null pointer for the null
    pointer and for an object that is not a star. *)
Definition SSGetStarPtr (h : heap) (p : SSObjectPtr) : option SSObjectPtr :=
  match p with
  | nullptr => Some nullptr
  | ptr l =>
      obj ← h !! l;
      match obj with
      | ObjStar _ => Some (ptr l)
      | ObjOther => Some nullptr
      end
  end.

(** Every pointer of a collection is null or allocated. *)
Definition ptr_allocated (h : heap) (p : SSObjectPtr) : Prop :=
  match p with
  | nullptr => True
  | ptr l => is_Some (h !! l)
  end.

Definition vec_allocated (h : heap) (objects : SSObjectVec) : Prop :=
  Forall (ptr_allocated h) objects.

(** ** Object maps ([SSObject.cpp]) *)

(** [map.insert ( { k, v } )] of [std::map]: an existing entry is kept. *)
Definition map_insert (k : SSIdentifier) (v : Z) (map : SSObjectMap)
  : SSObjectMap :=
  match map !! k with
  | Some _ => map
  | None => <[k := v]> map
  end.

(** [map[ k ]] of [std::map]: an absent key is inserted with the value 0. *)
Definition map_subscript (k : SSIdentifier) (map : SSObjectMap)
  : Z * SSObjectMap :=
  match map !! k with
  | Some v => (v, map)
  | None => (0, <[k := 0]> map)
  end.

(** The loop of [SSMakeObjectMap], at index [i] with [objects] the part of
    the vector from [i] on. *)
Fixpoint SSMakeObjectMap_from (h : heap) (cat : SSCatalog)
    (objects : SSObjectVec) (i : Z) (map : SSObjectMap) : option SSObjectMap :=
  match objects with
  | [] => Some map
  | p :: rest =>
      i' ← int_add i 1;
      match p with
      | nullptr => SSMakeObjectMap_from h cat rest i' map
      | ptr l =>
          obj ← h !! l;
          let ident := getIdentifier obj cat in
          if negb (ident_valid ident)
          then SSMakeObjectMap_from h cat rest i' map
          else SSMakeObjectMap_from h cat rest i' (map_insert ident i' map)
      end
  end.

Definition SSMakeObjectMap (h : heap) (objects : SSObjectVec) (cat : SSCatalog)
  : option SSObjectMap :=
  SSMakeObjectMap_from h cat objects 0 ∅.

(** [SSIdentifierToObject]: the pointer found and the map as the lookup
    leaves it. *)
Definition SSIdentifierToObject (ident : SSIdentifier) (map : SSObjectMap)
    (objects : SSObjectVec) : option (SSObjectPtr * SSObjectMap) :=
  let '(k, map') := map_subscript ident map in
  if decide (0 < k)
  then p ← objects !! Z.to_nat (k - 1); Some (p, map')
  else Some (nullptr, map').

(** The slot an identifier resolves to: 0 for an absent identifier. *)
Definition slot_of (map : SSObjectMap) (ident : SSIdentifier) : Z :=
  default 0 (map !! ident).

(** ** Strings ([SSUtilities.cpp]) *)

Abbreviation chars := list_ascii_of_string.

(** The characters [trim] removes: space, tab, carriage return, newline. *)
Definition is_blank (c : ascii) : bool :=
  bool_decide (c ∈ [" "%char; "009"%char; "013"%char; "010"%char]).

(** [str.find_first_not_of ( " \t\r\n" )]: [None] is [string::npos]. *)
Fixpoint find_first_not_blank (s : list ascii) (i : nat) : option nat :=
  match s with
  | [] => None
  | c :: rest => if is_blank c then find_first_not_blank rest (S i) else Some i
  end.

(** [str.find_last_not_of ( " \t\r\n" )]. *)
Fixpoint find_last_not_blank (s : list ascii) (i : nat) : option nat :=
  match s with
  | [] => None
  | c :: rest =>
      match find_last_not_blank rest (S i) with
      | Some j => Some j
      | None => if is_blank c then None else Some i
      end
  end.

(** [str.substr ( pos, n )] for [pos] within the string: the count is
    cut at the end of the string. *)
Definition substr (str : string) (pos n : nat) : string :=
  String.substring pos n str.

Definition trim (str : string) : string :=
  match find_first_not_blank (chars str) 0, find_last_not_blank (chars str) 0 with
  | Some s, Some e => substr str s ((e - s) + 1)
  | _, _ => ""
  end.

Definition string_empty (s : string) : bool :=
  bool_decide (String.length s = 0%nat).

(** [str.c_str()] as [sscanf] and [cstr[0]] read it: the characters before
    the first NUL. *)
Fixpoint c_str (str : string) : string :=
  match str with
  | EmptyString => EmptyString
  | String c rest =>
      if decide (c = "000"%char) then EmptyString else String c (c_str rest)
  end.

(** ** Angles ([SSUtilities.cpp]) *)

Section Angles.

(** The values [sscanf ( cstr, "%lf %lf %lf", ... )] converts, in order:
    the C library decides how many of the three groups it finds. *)
Variable sscanf_lf3 : string → list float.

Definition strtodeg (str : string) : float :=
  let cstr := c_str str in
  let vals := sscanf_lf3 cstr in
  (* deg, min and sec start at 0.0 and keep it where nothing is stored *)
  let deg := nth 0 vals 0%float in
  let min := nth 1 vals 0%float in
  let sec := nth 2 vals 0%float in
  let deg := (abs deg + min / 60 + sec / 3600)%float in
  match cstr with
  | String "-" _ => (- deg)%float
  | _ => deg
  end.

End Angles.

(** A scanner for plain decimal groups, [[+-]digits[.digits]], separated by
    blanks, to instantiate [sscanf_lf3] in the examples.  The value of a
    group is its digits as an integer, divided by the power of ten of its
    fraction: for groups of at most 15 digits this is the correctly
    rounded value, which is what the C library converts to. *)
Definition digit_of (c : ascii) : option Z :=
  let n := Z.of_nat (nat_of_ascii c) in
  if decide (48 ≤ n ≤ 57) then Some (n - 48) else None.

Fixpoint scan_digits (s : list ascii) (acc : Z) (count : nat)
  : Z * nat * list ascii :=
  match s with
  | c :: rest =>
      match digit_of c with
      | Some d => scan_digits rest (10 * acc + d) (S count)
      | None => (acc, count, s)
      end
  | [] => (acc, count, s)
  end.

Definition float_of_Z (z : Z) : float := of_uint63 (Uint63Axioms.of_Z z).

Definition scan_number (s : list ascii) : option (float * list ascii) :=
  let '(neg, s1) :=
    match s with
    | "-"%char :: rest => (true, rest)
    | "+"%char :: rest => (false, rest)
    | _ => (false, s)
    end in
  let '(ip, ni, s2) := scan_digits s1 0 0 in
  let '(m, nf, s3) :=
    match s2 with
    | "."%char :: rest => scan_digits rest ip 0
    | _ => (ip, 0%nat, s2)
    end in
  if decide (ni + nf = 0)%nat then None
  else
    let v := (float_of_Z m / float_of_Z (10 ^ Z.of_nat nf))%float in
    Some (if neg : bool then (- v)%float else v, s3).

Fixpoint skip_blanks (s : list ascii) : list ascii :=
  match s with
  | c :: rest => if is_blank c then skip_blanks rest else s
  | [] => []
  end.

Fixpoint scan_numbers (groups : nat) (s : list ascii) : list float :=
  match groups with
  | O => []
  | S groups' =>
      match scan_number (skip_blanks s) with
      | Some (v, rest) => v :: scan_numbers groups' rest
      | None => []
      end
  end.

Definition sscanf_decimal (cstr : string) : list float :=
  scan_numbers 3 (chars cstr).

(** [str.find_first_of ( set )]. *)
Fixpoint find_first_of (s : list ascii) (set : list ascii) (i : nat)
  : option nat :=
  match s with
  | [] => None
  | c :: rest =>
      if bool_decide (c ∈ set) then Some i else find_first_of rest set (S i)
  end.

(** ** Star accessors *)

(** Modelled from the spec: the accessors of [SSStar] are defined outside
    the sources.  Setters store the value given, getters return the value
    stored; the fundamental position and motion are set together. *)
Definition setNames (names : list string) (s : SSStar) : SSStar :=
  mkStar names (star_idents s) (star_coords s) (star_motion s)
         (star_Vmag s) (star_Bmag s) (star_spectrum s).

Definition setIdentifiers (idents : list SSIdentifier) (s : SSStar) : SSStar :=
  mkStar (star_names s) idents (star_coords s) (star_motion s)
         (star_Vmag s) (star_Bmag s) (star_spectrum s).

Definition setFundamentalMotion (coords motion : SSSpherical) (s : SSStar)
  : SSStar :=
  mkStar (star_names s) (star_idents s) coords motion
         (star_Vmag s) (star_Bmag s) (star_spectrum s).

Definition setVMagnitude (vmag : float) (s : SSStar) : SSStar :=
  mkStar (star_names s) (star_idents s) (star_coords s) (star_motion s)
         vmag (star_Bmag s) (star_spectrum s).

Definition setBMagnitude (bmag : float) (s : SSStar) : SSStar :=
  mkStar (star_names s) (star_idents s) (star_coords s) (star_motion s)
         (star_Vmag s) bmag (star_spectrum s).

Definition getFundamentalCoords (s : SSStar) : SSSpherical := star_coords s.
Definition getFundamentalMotion (s : SSStar) : SSSpherical := star_motion s.
Definition getRadVel (s : SSStar) : float := rad (star_motion s).

(** Modelled from the spec: [SSStar::addIdentifier] is defined outside the
    sources; it adds to the star's identifier set as [SSAddIdentifier]
    does. *)
Definition addIdentifier (ident : SSIdentifier) (s : SSStar) : SSStar :=
  setIdentifiers (SSAddIdentifier ident (star_idents s)) s.

(** The star a pointer refers to; a pointer to anything else faults. *)
Definition star_at (h : heap) (l : loc) : option SSStar :=
  obj ← h !! l;
  match obj with
  | ObjStar s => Some s
  | ObjOther => None
  end.

(** [p->method ( ... )] for a method that updates the star in place. *)
Definition star_store (h : heap) (l : loc) (f : SSStar → SSStar) : option heap :=
  s ← star_at h l;
  Some (<[l := ObjStar (f s)]> h).

(** Modelled from the spec: [SSIdentifierNameMap] and
    [SSIdentifiersToNames] are defined outside the sources.  The table
    associates identifiers with names; the result lists every name of the
    table whose identifier is in the set, in the order of the table. *)
Abbreviation SSIdentifierNameMap := (list (SSIdentifier * string)).

Definition SSIdentifiersToNames (idents : list SSIdentifier)
    (nameMap : SSIdentifierNameMap) : list string :=
  (filter (λ e, e.1 ∈ idents) nameMap).*2.

(** ** Proper motion ([SSImportGJ.cpp], [atan2pi] of [SSUtilities.cpp]) *)

(** The arithmetic the conversions are written in: the numbers, the
    constants 0.0, 2.0 and [M_PI], the operations [+], [*], [/] and [<],
    and [sqrt], [sin], [cos] and [atan2].  The source computes in
    [double]; the real numbers are the arithmetic that [double]
    approximates. *)
Record Arithmetic (T : Type) := {
  num_zero : T;
  num_two : T;
  num_pi : T;
  num_add : T → T → T;
  num_mul : T → T → T;
  num_div : T → T → T;
  num_lt : T → T → bool;
  num_sqrt : T → T;
  num_sin : T → T;
  num_cos : T → T;
  num_atan2 : T → T → T
}.

Arguments num_zero {T} _.
Arguments num_two {T} _.
Arguments num_pi {T} _.
Arguments num_add {T} _ _ _.
Arguments num_mul {T} _ _ _.
Arguments num_div {T} _ _ _.
Arguments num_lt {T} _ _ _.
Arguments num_sqrt {T} _ _.
Arguments num_sin {T} _ _.
Arguments num_cos {T} _ _.
Arguments num_atan2 {T} _ _ _.

Section ProperMotion.

Context {T : Type} (A : Arithmetic T).

Local Infix "+" := (num_add A).
Local Infix "*" := (num_mul A).
Local Infix "/" := (num_div A).

(** [atan2pi ( y, x )] of [SSUtilities.cpp]. *)
Definition atan2pi (y x : T) : T :=
  if num_lt A y (num_zero A)
  then num_atan2 A y x + num_two A * num_pi A
  else num_atan2 A y x.

(** [pm_pa_to_pmra_pmdec]: the pair [(pmra, pmdec)] it stores. *)
Definition pm_pa_to_pmra_pmdec (pm pa dec : T) : T * T :=
  (pm * num_sin A pa / num_cos A dec, pm * num_cos A pa).

(** [pmra_pmdec_to_pm_pa]: the pair [(pm, pa)] it stores. *)
Definition pmra_pmdec_to_pm_pa (pmra pmdec dec : T) : T * T :=
  let pmra := pmra * num_cos A dec in
  (num_sqrt A (pmra * pmra + pmdec * pmdec), atan2pi pmra pmdec).

End ProperMotion.

(** [M_PI], the binary64 value nearest to pi. *)
Definition M_PI : float := 0x1.921fb54442d18p+1%float.

(** The arithmetic of the source: [double] is binary64, and [sin], [cos]
    and [atan2] are those of the C library, which the sources do not
    define. *)
Definition binary64 (sin cos : float → float) (atan2 : float → float → float)
  : Arithmetic float :=
  {| num_zero := 0%float; num_two := 2%float; num_pi := M_PI;
     num_add := PrimFloat.add; num_mul := PrimFloat.mul;
     num_div := PrimFloat.div; num_lt := PrimFloat.ltb;
     num_sqrt := PrimFloat.sqrt;
     num_sin := sin; num_cos := cos; num_atan2 := atan2 |}.

Section RealNumbers.

Import Stdlib.Reals.Reals.
Local Open Scope R_scope.




End RealNumbers.

(** ** The importers ([SSImportGJ.cpp]) *)

Section Importers.

(** [SSIdentifier::fromString] and [compareSSIdentifiers] are defined
    outside the sources: the parser of identifier strings and the order
    identifiers are sorted by. *)
Variable fromString : string → SSIdentifier.
Variable compareSSIdentifiers : SSIdentifier → SSIdentifier → bool.

(** [ifstream file ( filename )] with [getline]: the lines of the file,
    or [None] when the stream does not open. *)
Variable openFile : string → option (list string).

(** The provisional star of a CNS3 line, lines 108-223 of the importer:
    position and motion precessed to J2000, distance, radial velocity,
    magnitudes, spectral type and the HD, DM and GCVS identifiers.  Its
    conversions and the precession are defined outside the sources. *)
Variable cns3Star : string → SSStar.

(** Right ascension, declination and the two proper motions of a line
    of the accurate-coordinates file, lines 357-370. *)
Variable gjacAngles : string → float * float * float * float.

(** [SSCoordinates::kLYPerParsec / pHIPStar->getParallax()]. *)
Variable hipDistance : SSStar → float.

(** [sort ( begin, end, compareSSIdentifiers )]. *)
Definition sortIdentifiers (idents : list SSIdentifier) : list SSIdentifier :=
  merge_sort (λ a b, Is_true (compareSSIdentifiers a b)) idents.

Definition addGJStar (h : heap) (pStar : SSObjectPtr) (strGJ strC : string)
    (stars : SSObjectVec) : option (heap * SSObjectVec) :=
  match pStar with
  | nullptr => None
  | ptr l =>
      star ← star_at h l;
      let '(pNewStar, h) := heap_new (ObjStar star) h in
      let identGJ := fromString ("GJ " +:+ strGJ +:+ strC) in
      h ← star_store h pNewStar (addIdentifier identGJ);
      h ← star_store h pNewStar
             (λ s, setIdentifiers (sortIdentifiers (star_idents s)) s);
      Some (h, stars ++ [ptr pNewStar])
  end.

(** The entry emitted for a component: the source star with the
    component's identifier added to its identifier set. *)
Definition componentStar (star : SSStar) (strGJ strC : string) : SSStar :=
  setIdentifiers
    (sortIdentifiers
       (SSAddIdentifier (fromString ("GJ " +:+ strGJ +:+ strC))
          (star_idents star)))
    star.

(** [for ( char c : comps ) addGJStar ( pStar, strGJ, string ( 1, c ), stars )] *)
Fixpoint addGJStar_each (h : heap) (pStar : SSObjectPtr) (strGJ : string)
    (comps : list ascii) (stars : SSObjectVec) : option (heap * SSObjectVec) :=
  match comps with
  | [] => Some (h, stars)
  | c :: rest =>
      '(h, stars) ← addGJStar h pStar strGJ (String c "") stars;
      addGJStar_each h pStar strGJ rest stars
  end.

Definition addGJComponentStars (h : heap) (pStar : SSObjectPtr)
    (strGJ comps : string) (stars : SSObjectVec)
  : option (Z * heap * SSObjectVec) :=
  if decide (String.length comps < 2)%nat
  then
    '(h, stars) ← addGJStar h pStar strGJ comps stars;
    Some (1, h, stars)
  else
    '(h, stars) ← addGJStar_each h pStar strGJ (chars comps) stars;
    Some (int_of_size (String.length comps), h, stars).

(** The reading loop of [SSImportGJCNS3], lines 95-227.  The star that
    [SSNewObject ( kTypeStar )] creates and the setters of lines 219-223
    fill is allocated with its fields set. *)
Fixpoint readCNS3 (lines : list string) (numStars : Z) (h : heap)
    (stars : SSObjectVec) : option (Z * heap * SSObjectVec) :=
  match lines with
  | [] => Some (numStars, h, stars)
  | line :: rest =>
      if decide (String.length line < 119)%nat
      then readCNS3 rest numStars h stars
      else
        let strGJ := trim (substr line 2 6) in
        let comps := trim (substr line 8 2) in
        let strRA := trim (substr line 12 8) in
        let strDec := trim (substr line 21 8) in
        if string_empty strRA || string_empty strDec
        then readCNS3 rest numStars h stars
        else
          let '(pStar, h) := heap_new (ObjStar (cns3Star line)) h in
          '(n, h, stars) ← addGJComponentStars h (ptr pStar) strGJ comps stars;
          numStars ← int_add numStars n;
          readCNS3 rest numStars h stars
  end.

(** The body of the cross-match loop of [SSImportGJCNS3], lines 238-282,
    for the entry [p] of [stars]. *)
Definition crossMatchStar (nameMap : SSIdentifierNameMap)
    (gjACStars : SSObjectVec) (h : heap) (map : SSObjectMap)
    (p : SSObjectPtr) : option (heap * SSObjectMap) :=
  pStar ← SSGetStarPtr h p;
  match pStar with
  | nullptr => Some (h, map)
  | ptr l =>
      star ← star_at h l;
      let idents : list SSIdentifier := [] in
      let identGJ := SSStar_getIdentifier (star_idents star) kCatGJ in
      '(found, map) ← SSIdentifierToObject identGJ map gjACStars;
      pACStar ← SSGetStarPtr h found;
      '(h, idents) ←
        match pACStar with
        | nullptr => Some (h, idents)
        | ptr a =>
            acStar ← star_at h a;
            let coords := getFundamentalCoords star in
            let motion := getFundamentalMotion star in
            let accCoords := getFundamentalCoords acStar in
            let accMotion := getFundamentalMotion acStar in
            let coords :=
              mkSpherical (lon accCoords) (lat accCoords)
                (if is_infinity (rad accCoords) then rad coords
                 else rad accCoords) in
            let motion :=
              mkSpherical (lon accMotion) (lat accMotion)
                (if is_infinity (rad accMotion) then rad motion
                 else rad accMotion) in
            let idents := star_idents star in
            let idents :=
              SSAddIdentifier (SSStar_getIdentifier (star_idents acStar) kCatHIP) idents in
            let idents :=
              SSAddIdentifier (SSStar_getIdentifier (star_idents acStar) kCatBayer) idents in
            let idents :=
              SSAddIdentifier (SSStar_getIdentifier (star_idents acStar) kCatFlamsteed) idents in
            let idents :=
              SSAddIdentifier (SSStar_getIdentifier (star_idents acStar) kCatGCVS) idents in
            let idents := sortIdentifiers idents in
            h ← star_store h l (setIdentifiers idents);
            h ← star_store h l (setFundamentalMotion coords motion);
            Some (h, idents)
        end;
      let names := SSIdentifiersToNames idents nameMap in
      if decide (0 < length names)%nat
      then h ← star_store h l (setNames names); Some (h, map)
      else Some (h, map)
  end.

(** The cross-match loop, at index [i] with [stars] the part of the
    vector from [i] on. *)
Fixpoint crossMatch_from (nameMap : SSIdentifierNameMap)
    (gjACStars : SSObjectVec) (h : heap) (map : SSObjectMap)
    (stars : SSObjectVec) (i : Z) : option (heap * SSObjectMap) :=
  match stars with
  | [] => Some (h, map)
  | p :: rest =>
      '(h, map) ← crossMatchStar nameMap gjACStars h map p;
      i' ← int_add i 1;
      crossMatch_from nameMap gjACStars h map rest i'
  end.

Definition SSImportGJCNS3 (filename : string) (nameMap : SSIdentifierNameMap)
    (gjACStars : SSObjectVec) (h : heap) (stars : SSObjectVec)
  : option (Z * heap * SSObjectVec) :=
  match openFile filename with
  | None => Some (0, h, stars)
  | Some lines =>
      '(numStars, h, stars) ← readCNS3 lines 0 h stars;
      map ← SSMakeObjectMap h gjACStars kCatGJ;
      '(h, _) ← crossMatch_from nameMap gjACStars h map stars 0;
      Some (numStars, h, stars)
  end.

(** The components of a designation and the designation without them,
    lines 328-338 of [SSImportGJAC]: [(strGJ, comps)]. *)
Definition splitComponents (strGJ : string) : option (string * string) :=
  match find_first_of (chars strGJ) (chars "ABCD") 0 with
  | None => Some (strGJ, "")
  | Some pos1 =>
      let pos2 := find_first_of (chars strGJ) (chars "/") 0 in
      (* pos1 - 1 is string::npos when pos1 is 0, and substr throws *)
      if decide (pos1 = 0)%nat then None
      else
        let count :=
          match pos2 with
          | None => String.length strGJ
          | Some pos2 =>
              (* pos2 - pos1 wraps to a count past the end of the string *)
              if decide (pos2 < pos1)%nat then String.length strGJ
              else (pos2 - pos1)%nat
          end in
        let comps := trim (substr strGJ (pos1 - 1) count) in
        Some (substr strGJ 0 pos1, comps)
  end.

(** The reading loop of [SSImportGJAC], lines 315-421.  The lookups
    thread the map, which they may extend. *)
Fixpoint readGJAC (hipStars : SSObjectVec) (lines : list string)
    (numStars : Z) (map : SSObjectMap) (h : heap) (stars : SSObjectVec)
  : option (Z * heap * SSObjectVec) :=
  match lines with
  | [] => Some (numStars, h, stars)
  | line :: rest =>
      if decide (String.length line < 124)%nat
      then readGJAC hipStars rest numStars map h stars
      else
        let strGJ := trim (substr line 2 20) in
        let strHIP := trim (substr line 22 13) in
        '(strGJ, comps) ← splitComponents strGJ;
        let strRA := trim (substr line 36 11) in
        let strDec := trim (substr line 48 11) in
        if string_empty strRA || string_empty strDec
        then readGJAC hipStars rest numStars map h stars
        else
          let '(ra, dec, pmRA, pmDec) := gjacAngles line in
          let coords := mkSpherical ra dec infinity in
          let motion := mkSpherical pmRA pmDec infinity in
          let vmag := infinity in
          let bmag := infinity in
          let idents : list SSIdentifier := [] in
          let names : list string := [] in
          let hipID := fromString strHIP in
          let idents :=
            if ident_valid hipID then SSAddIdentifier hipID idents
            else idents in
          '(found, map) ← SSIdentifierToObject hipID map hipStars;
          pHIPStar ← SSGetStarPtr h found;
          '(coords, motion, vmag, bmag, idents) ←
            match pHIPStar with
            | nullptr => Some (coords, motion, vmag, bmag, idents)
            | ptr a =>
                hip ← star_at h a;
                let coords := mkSpherical (lon coords) (lat coords) (hipDistance hip) in
                let motion := mkSpherical (lon motion) (lat motion) (getRadVel hip) in
                let idents :=
                  SSAddIdentifier (SSStar_getIdentifier (star_idents hip) kCatBayer) idents in
                let idents :=
                  SSAddIdentifier (SSStar_getIdentifier (star_idents hip) kCatFlamsteed) idents in
                let idents :=
                  SSAddIdentifier (SSStar_getIdentifier (star_idents hip) kCatGCVS) idents in
                Some (coords, motion, star_Vmag hip, star_Bmag hip, idents)
            end;
          let '(pStar, h) :=
            heap_new (ObjStar (mkStar names idents coords motion vmag bmag "")) h in
          '(n, h, stars) ← addGJComponentStars h (ptr pStar) strGJ comps stars;
          numStars ← int_add numStars n;
          readGJAC hipStars rest numStars map h stars
  end.

Definition SSImportGJAC (filename : string) (hipStars : SSObjectVec)
    (h : heap) (stars : SSObjectVec) : option (Z * heap * SSObjectVec) :=
  match openFile filename with
  | None => Some (0, h, stars)
  | Some lines =>
      map ← SSMakeObjectMap h hipStars kCatHIP;
      readGJAC hipStars lines 0 map h stars
  end.

End Importers.

(** ** Vocabulary of the statements *)

(** The identifier [SSMakeObjectMap] inserts a record under, if any. *)
Definition entry_ident (h : heap) (cat : SSCatalog) (p : SSObjectPtr)
  : option SSIdentifier :=
  match p with
  | nullptr => None
  | ptr l =>
      obj ← h !! l;
      let ident := getIdentifier obj cat in
      if ident_valid ident then Some ident else None
  end.

(** Every slot of the map is a position of the collection, or 0. *)
Definition slots_in_bounds (map : SSObjectMap) (objects : SSObjectVec) : Prop :=
  ∀ ident k, map !! ident = Some k → k ≤ Z.of_nat (length objects).

(** ** Sample parameters for the examples *)

(** A parser of designations for the examples: "GJ", "HD" or "HIP", a
    space, a number and an optional component letter; the payload is ten
    times the number plus the rank of the letter.  Anything else gives the
    null identifier.  The parser of the repository is outside the sources. *)
Definition sampleCatalog (prefix : string) : SSCatalog :=
  if decide (prefix = "GJ") then kCatGJ
  else if decide (prefix = "HD") then kCatHD
  else if decide (prefix = "HIP") then kCatHIP
  else kCatUnknown.

Definition sampleComponent (rest : list ascii) : option Z :=
  match rest with
  | [] => Some 0
  | [c] =>
      let n := Z.of_nat (nat_of_ascii c) in
      if decide (65 ≤ n ≤ 73) then Some (n - 64) else None
  | _ => None
  end.

Definition sampleFromString (str : string) : SSIdentifier :=
  match find_first_of (chars str) [" "%char] 0 with
  | None => SSIdentifier_null
  | Some pos =>
      let cat := sampleCatalog (substr str 0 pos) in
      let '(n, count, rest) :=
        scan_digits (chars (substr str (pos + 1) (String.length str))) 0 0 in
      match sampleComponent rest with
      | Some c =>
          if decide (cat = kCatUnknown ∨ count = 0%nat) then SSIdentifier_null
          else mkIdentifier cat (10 * n + c)
      | None => SSIdentifier_null
      end
  end.

(** An order for the examples: by catalog tag, then by payload. *)
Definition sampleCompare (a b : SSIdentifier) : bool :=
  bool_decide (catalog_code (ident_catalog a) < catalog_code (ident_catalog b))%nat
  || (bool_decide (ident_catalog a = ident_catalog b)
      && bool_decide (ident_number a < ident_number b)).

(** Example records: two reference stars that share the designation
    GJ 1001 and differ in magnitude. *)
Definition unknownPlace : SSSpherical := mkSpherical infinity infinity infinity.

Definition refStar1 : SSStar :=
  mkStar [] [mkIdentifier kCatGJ 1001] unknownPlace unknownPlace
         8%float infinity "".

Definition refStar2 : SSStar :=
  mkStar [] [mkIdentifier kCatGJ 1001] unknownPlace unknownPlace
         9%float infinity "".

Definition refHeap : heap :=
  <[0%nat := ObjStar refStar1]> (<[1%nat := ObjStar refStar2]> ∅).


(** A provisional entry for the examples: HD 48915 at radial velocity
    0.25, at location 0 of the heap. *)
Definition provStar : SSStar :=
  mkStar [] [mkIdentifier kCatHD 48915]
         (mkSpherical 1%float 2%float 8.5%float)
         (mkSpherical 3%float 4%float 0.25%float)
         1.5%float 2%float "A1V".

Definition provHeap : heap := {[ 0%nat := ObjStar provStar ]}.

(** A file system without files, and conversions for the examples. *)
Definition noFiles (filename : string) : option (list string) := None.
Definition sampleStar (line : string) : SSStar := provStar.
Definition sampleAngles (line : string) : float * float * float * float :=
  (1%float, 2%float, 3%float, 4%float).
Definition sampleDistance (hip : SSStar) : float := rad (star_coords hip).

(** A reference entry for the examples: GJ 1001 A with a Hipparcos number
    and radial velocity 0.5, and a name table that knows HD 48915. *)
Definition accurateStar : SSStar :=
  mkStar [] [mkIdentifier kCatGJ 10011; mkIdentifier kCatHIP 323490]
         (mkSpherical 10%float 20%float infinity)
         (mkSpherical 5%float 6%float 0.5%float)
         infinity infinity "".

Definition sampleNames : SSIdentifierNameMap :=
  [(mkIdentifier kCatHD 48915, "Sirius")].

(** A CNS3 line of 119 characters: designation 1001, components AB. *)
Definition sampleLine : string :=
  "GJ  1001AB  06 42 56 -16 38.8  1.324 204.1   -7.6     A1 V          -1.46                                    377.4     ".

Definition sampleFiles (filename : string) : option (list string) :=
  if decide (filename = "cns3.dat") then Some [sampleLine] else None.

Definition accurateHeap : heap := {[ 0%nat := ObjStar accurateStar ]}.

(** The cross-match step alone, on the provisional entry GJ 1001A at
    radial velocity 0.25 and the reference entry at 0.5. *)
Definition matchedStar : SSStar :=
  setIdentifiers [mkIdentifier kCatGJ 10011; mkIdentifier kCatHD 48915]
    provStar.

Definition crossMatchHeap : heap :=
  <[1%nat := ObjStar matchedStar]> accurateHeap.

(** ** Vocabulary for strings *)

(** A run of the characters [trim] removes. *)
Definition blanks (s : list ascii) : Prop :=
  Forall (λ c, is_blank c = true) s.

(** A character sequence that [trim] has nothing to remove from: empty,
    or with a first and a last character that are not blank. *)
Definition trimmed (s : list ascii) : Prop :=
  match s with
  | [] => True
  | c :: _ => is_blank c = false ∧ is_blank (List.last s c) = false
  end.

(** ** Splitting ([SSUtilities.cpp]) *)

(** Whether [delim] stands at the head of [s]. *)
Fixpoint starts_with (delim s : list ascii) : bool :=
  match delim, s with
  | [], _ => true
  | d :: delim', c :: s' => bool_decide (d = c) && starts_with delim' s'
  | _ :: _, [] => false
  end.

(** The search of [str.find ( delim, pos )] over [s], the characters of
    the string from index [i] on: the first index at which [delim]
    stands. *)
Fixpoint find_in (s delim : list ascii) (i : nat) : option nat :=
  if starts_with delim s then Some i
  else
    match s with
    | [] => None
    | _ :: rest => find_in rest delim (S i)
    end.

(** [str.find ( delim, pos )]: [None] is [string::npos], also the result
    for [pos] past the end. *)
Definition find (str delim : string) (pos : nat) : option nat :=
  if decide (pos ≤ String.length str)%nat
  then find_in (drop pos (chars str)) (chars delim) pos
  else None.

(** The search of [str.find_first_not_of ( set, pos )] over [s], the
    characters from index [i] on. *)
Fixpoint find_not_in (s set : list ascii) (i : nat) : option nat :=
  match s with
  | [] => None
  | c :: rest =>
      if bool_decide (c ∈ set) then find_not_in rest set (S i) else Some i
  end.

(** [str.find_first_not_of ( set, pos )] for [pos] an index or
    [string::npos]. *)
Definition find_first_not_of (str set : string) (pos : option nat)
  : option nat :=
  match pos with
  | Some pos => find_not_in (drop pos (chars str)) (chars set) pos
  | None => None
  end.

(** The loop of [split], at [start] with [end] the result of the last
    search.  The loop of the source is unbounded: [fuel] bounds the
    number of its rounds, and [None] is a loop that has not ended within
    them. *)
Fixpoint split_loop (fuel : nat) (str delim : string) (start : nat)
    (end_ : option nat) (tokens : list string) : option (list string) :=
  match end_ with
  | None => Some (tokens ++ [substr str start (String.length str)])
  | Some e =>
      match fuel with
      | O => None
      | S fuel =>
          let tokens := tokens ++ [substr str start (e - start)] in
          let start := (e + String.length delim)%nat in
          split_loop fuel str delim start (find str delim start) tokens
      end
  end.

Definition split (fuel : nat) (str delim : string) : option (list string) :=
  split_loop fuel str delim 0 (find str delim 0) [].

(** The loop of [tokenize], with [end] as the last round left it. *)
Fixpoint tokenize_loop (fuel : nat) (str delim : string)
    (end_ : option nat) (tokens : list string) : option (list string) :=
  match find_first_not_of str delim end_ with
  | None => Some tokens
  | Some start =>
      match fuel with
      | O => None
      | S fuel =>
          let end_ := find str delim start in
          let count :=
            match end_ with
            | Some e => (e - start)%nat
            | None => String.length str   (* npos - start: to the end *)
            end in
          tokenize_loop fuel str delim end_ (tokens ++ [substr str start count])
      end
  end.

Definition tokenize (fuel : nat) (str delim : string)
  : option (list string) :=
  tokenize_loop fuel str delim (Some 0%nat) [].

(** The tokens put together again, the delimiter between them. *)
Fixpoint join (delim : string) (tokens : list string) : string :=
  match tokens with
  | [] => ""
  | [token] => token
  | token :: rest => token +:+ delim +:+ join delim rest
  end.

(** ** Object types ([SSObject.cpp]) *)

(** Modelled from the spec: [SSObjectType] is declared in [SSObject.hpp],
    outside the sources; these are the enumerators that the tables of
    [SSObject.cpp] name. *)
Inductive SSObjectType :=
  | kTypeNonexistent
  | kTypePlanet
  | kTypeMoon
  | kTypeAsteroid
  | kTypeComet
  | kTypeSatellite
  | kTypeSpacecraft
  | kTypeStar
  | kTypeDoubleStar
  | kTypeVariableStar
  | kTypeDoubleVariableStar
  | kTypeOpenCluster
  | kTypeGlobularCluster
  | kTypeBrightNebula
  | kTypeDarkNebula
  | kTypePlanetaryNebula
  | kTypeGalaxy
  | kTypeConstellation
  | kTypeAsterism.

Definition allTypes : list SSObjectType :=
  [kTypeNonexistent; kTypePlanet; kTypeMoon; kTypeAsteroid; kTypeComet;
   kTypeSatellite; kTypeSpacecraft; kTypeStar; kTypeDoubleStar;
   kTypeVariableStar; kTypeDoubleVariableStar; kTypeOpenCluster;
   kTypeGlobularCluster; kTypeBrightNebula; kTypeDarkNebula;
   kTypePlanetaryNebula; kTypeGalaxy; kTypeConstellation; kTypeAsterism].

#[global] Instance SSObjectType_eq_dec : EqDecision SSObjectType.
Proof. solve_decision. Defined.

Definition type_index (t : SSObjectType) : nat :=
  default 0%nat (fst <$> list_find (λ u, u = t) allTypes).

#[global] Instance SSObjectType_countable : Countable SSObjectType.
Proof.
  by apply (inj_countable' type_index
              (λ n, default kTypeNonexistent (allTypes !! n))); intros [].
Defined.

(** [map[ k ]] of [std::map]: an absent key is inserted with the
    value-initialised value [dflt], which is returned. *)
Definition subscript `{Countable K} {V : Type} (dflt : V) (k : K)
    (map : gmap K V) : V * gmap K V :=
  match map !! k with
  | Some v => (v, map)
  | None => (dflt, <[k := dflt]> map)
  end.

(** The tables [_typeStrings] and [_stringTypes] as initialised. *)
Definition _typeStrings : gmap SSObjectType string :=
  list_to_map
    [(kTypeNonexistent, "NO"); (kTypePlanet, "PL"); (kTypeMoon, "MN");
     (kTypeAsteroid, "AS"); (kTypeComet, "CM"); (kTypeSatellite, "ST");
     (kTypeSpacecraft, "SC"); (kTypeStar, "SS"); (kTypeDoubleStar, "DS");
     (kTypeVariableStar, "VS"); (kTypeDoubleVariableStar, "DV");
     (kTypeOpenCluster, "OC"); (kTypeGlobularCluster, "GC");
     (kTypeBrightNebula, "BN"); (kTypeDarkNebula, "DN");
     (kTypePlanetaryNebula, "PN"); (kTypeGalaxy, "GX");
     (kTypeConstellation, "CN"); (kTypeAsterism, "AM")].

Definition _stringTypes : gmap string SSObjectType :=
  list_to_map
    [("NO", kTypeNonexistent); ("PL", kTypePlanet); ("MN", kTypeMoon);
     ("AS", kTypeAsteroid); ("CM", kTypeComet); ("ST", kTypeSatellite);
     ("SC", kTypeSpacecraft); ("SS", kTypeStar); ("DS", kTypeDoubleStar);
     ("VS", kTypeVariableStar); ("DV", kTypeDoubleVariableStar);
     ("OC", kTypeOpenCluster); ("GC", kTypeGlobularCluster);
     ("BN", kTypeBrightNebula); ("DN", kTypeDarkNebula);
     ("PN", kTypePlanetaryNebula); ("GX", kTypeGalaxy);
     ("CN", kTypeConstellation); ("AM", kTypeAsterism)].

(** [SSObject::typeToCode]: the code, and the table as the lookup leaves
    it. *)
Definition typeToCode (typeStrings : gmap SSObjectType string)
    (type : SSObjectType) : string * gmap SSObjectType string :=
  subscript "" type typeStrings.

(** [SSObject::codeToType]: the type, and the table as the lookup leaves
    it.  [zero] is the value-initialised [SSObjectType], the enumerator
    of value 0. *)
Definition codeToType (zero : SSObjectType)
    (stringTypes : gmap string SSObjectType) (code : string)
  : SSObjectType * gmap string SSObjectType :=
  subscript zero code stringTypes.

(** ** Vocabulary and examples for the reading loops *)

(** The lines the reading loop of [SSImportGJCNS3] makes an entry from:
    at least 119 characters, with right ascension and declination. *)
Definition cns3_usable (line : string) : bool :=
  bool_decide (119 ≤ String.length line)%nat
  && negb (string_empty (trim (substr line 12 8))
           || string_empty (trim (substr line 21 8))).

(** The sample CNS3 file between a header and an empty line. *)
Definition paddedFiles (filename : string) : option (list string) :=
  if decide (filename = "cns3.txt") then Some ["# CNS3"; sampleLine; ""]
  else None.

(** Two lines of 124 characters in the layout of the accurate-coordinates
    file: designation 1001 AB with HIP 32349, and a designation that
    starts with a component letter. *)
Definition gjacLine : string :=
  "  1001 AB             HIP 32349     06 45 08.92 -16 42 58.0                                                                 ".

Definition gjacBadLine : string :=
  "  A 1001              HIP 32349     06 45 08.92 -16 42 58.0                                                                 ".

Definition gjacFiles (filename : string) : option (list string) :=
  if decide (filename = "gjac.dat") then Some [gjacLine]
  else if decide (filename = "bad.dat") then Some [""; gjacLine; gjacBadLine]
  else None.

(** * Properties *)

(** ** Object maps *)

Lemma int_add_Some a b :
  INT_MIN ≤ a + b ≤ INT_MAX → int_add a b = Some (a + b).
Proof. intros Hfit. unfold int_add. case_decide; [done|lia]. Qed.

Lemma int_add_inv a b c : int_add a b = Some c → c = a + b ∧ c ≤ INT_MAX.
Proof.
  unfold int_add. destruct (decide _) as [[_ Hle]|]; [|done].
  by intros [= <-].
Qed.

Lemma map_insert_lookup k v (map : SSObjectMap) ident :
  map_insert k v map !! ident =
  match map !! ident with
  | Some w => Some w
  | None => if decide (k = ident) then Some v else None
  end.
Proof.
  unfold map_insert. destruct (map !! k) as [w|] eqn:Hk.
  - destruct (map !! ident) eqn:Hi; [done|]. case_decide; [congruence|done].
  - rewrite lookup_insert. case_decide; subst.
    + by rewrite Hk.
    + by destruct (map !! ident).
Qed.

(** The loop succeeds on allocated pointers when the indices fit [int]. *)
Lemma SSMakeObjectMap_from_total h cat objects i (map : SSObjectMap) :
  vec_allocated h objects →
  0 ≤ i → i + Z.of_nat (length objects) ≤ INT_MAX →
  is_Some (SSMakeObjectMap_from h cat objects i map).
Proof.
  revert i map. induction objects as [|p rest IH]; intros i map Hal Hi Hlen.
  { by eexists. }
  simpl in *. rewrite int_add_Some by (unfold INT_MIN; lia). simpl.
  apply Forall_cons in Hal as [Hp Hal].
  destruct p as [|l].
  - apply IH; [done|lia..].
  - destruct Hp as [obj ->]. simpl.
    destruct (negb _); apply IH; (done || lia).
Qed.

Lemma list_find_cons_eq {A} (P : A → Prop) `{∀ x, Decision (P x)} x l :
  list_find P (x :: l) =
  if decide (P x) then Some (0%nat, x) else prod_map S id <$> list_find P l.
Proof. reflexivity. Qed.

(** What the loop leaves under an identifier: the entry it started with,
    or else the index after the first record carrying the identifier. *)
Lemma SSMakeObjectMap_from_lookup h cat objects i (map map' : SSObjectMap) ident :
  SSMakeObjectMap_from h cat objects i map = Some map' →
  map' !! ident =
  match map !! ident with
  | Some k => Some k
  | None =>
      (λ jp : nat * SSObjectPtr, i + Z.of_nat jp.1 + 1) <$>
        list_find (λ p, entry_ident h cat p = Some ident) objects
  end.
Proof.
  revert i map. induction objects as [|p rest IH]; intros i map Hrun.
  { simpl in Hrun. injection Hrun as <-. by destruct (map !! ident). }
  simpl in Hrun.
  destruct (int_add i 1) as [i'|] eqn:Hi'; [|done]. simpl in Hrun.
  apply int_add_inv in Hi' as [-> _].
  assert (∀ o : option (nat * SSObjectPtr),
    (λ jp : nat * SSObjectPtr, i + 1 + Z.of_nat jp.1 + 1) <$> o =
    (λ jp : nat * SSObjectPtr, i + Z.of_nat jp.1 + 1) <$> (prod_map S id <$> o))
    as Hshift.
  { intros [[j q]|]; simpl; [f_equal; lia|done]. }
  rewrite list_find_cons_eq.
  destruct p as [|l].
  - rewrite (IH _ _ Hrun).
    destruct (map !! ident); [done|].
    destruct (decide _) as [Heq|_]; [done|]. apply Hshift.
  - destruct (decide _) as [Heq|Hne]; simpl in *;
      destruct (h !! l) as [obj|]; simpl in *; try done;
      destruct (ident_valid (getIdentifier obj cat)) eqn:Hv; simpl in *;
      try done; rewrite (IH _ _ Hrun), ?map_insert_lookup;
      destruct (map !! ident) as [k|]; try done.
    + rewrite decide_True by congruence. simpl. f_equal. lia.
    + rewrite decide_False by congruence. apply Hshift.
Qed.

Lemma SSMakeObjectMap_lookup h objects cat (map : SSObjectMap) ident :
  SSMakeObjectMap h objects cat = Some map →
  map !! ident =
  (λ jp : nat * SSObjectPtr, Z.of_nat jp.1 + 1) <$>
    list_find (λ p, entry_ident h cat p = Some ident) objects.
Proof.
  intros Hrun. unfold SSMakeObjectMap in Hrun.
  rewrite (SSMakeObjectMap_from_lookup _ _ _ _ _ _ ident Hrun), lookup_empty.
  by destruct (list_find _ _) as [[]|].
Qed.

Lemma SSMakeObjectMap_total h objects cat :
  vec_allocated h objects →
  Z.of_nat (length objects) ≤ INT_MAX →
  is_Some (SSMakeObjectMap h objects cat).
Proof. intros. apply SSMakeObjectMap_from_total; (done || lia). Qed.

(** A stored slot is the 1-based position of a record of the collection
    that carries the identifier. *)
Lemma SSMakeObjectMap_slot h objects cat (map : SSObjectMap) ident k :
  SSMakeObjectMap h objects cat = Some map →
  map !! ident = Some k →
  1 ≤ k ≤ Z.of_nat (length objects) ∧
  ∃ p, objects !! Z.to_nat (k - 1) = Some p ∧ entry_ident h cat p = Some ident.
Proof.
  intros Hrun Hk. rewrite (SSMakeObjectMap_lookup _ _ _ _ _ Hrun) in Hk.
  destruct (list_find _ _) as [[j p]|] eqn:Hfind; [|done].
  simpl in Hk. injection Hk as <-.
  apply list_find_Some in Hfind as (Hj & Hp & _).
  pose proof (lookup_lt_Some _ _ _ Hj).
  split; [lia|]. exists p. split; [|done].
  by replace (Z.to_nat (Z.of_nat j + 1 - 1)) with j by lia.
Qed.

(** C1, as amended: the object map is first-wins.  Whatever records follow
    it, the first record of the collection that carries a valid identifier
    under the catalog tag keeps the identifier's slot, and the lookup
    returns that record. *)
Theorem SSMakeObjectMap_first_wins (h : heap) (objects : SSObjectVec)
    (cat : SSCatalog) (i : nat) (l : loc) (obj : SSObject) :
  vec_allocated h objects →
  Z.of_nat (length objects) ≤ INT_MAX →
  objects !! i = Some (ptr l) →
  h !! l = Some obj →
  ident_valid (getIdentifier obj cat) = true →
  (∀ j l' obj', (j < i)%nat → objects !! j = Some (ptr l') →
     h !! l' = Some obj' → getIdentifier obj' cat ≠ getIdentifier obj cat) →
  ∃ map : SSObjectMap,
    SSMakeObjectMap h objects cat = Some map ∧
    map !! getIdentifier obj cat = Some (Z.of_nat i + 1) ∧
    SSIdentifierToObject (getIdentifier obj cat) map objects
      = Some (ptr l, map).
Proof.
  intros Hal Hlen Hi Hobj Hvalid Hfirst.
  destruct (SSMakeObjectMap_total h objects cat Hal Hlen) as [map Hmap].
  exists map. split; [done|].
  assert (map !! getIdentifier obj cat = Some (Z.of_nat i + 1)) as Hslot.
  { rewrite (SSMakeObjectMap_lookup _ _ _ _ _ Hmap).
    assert (list_find (λ p, entry_ident h cat p = Some (getIdentifier obj cat))
              objects = Some (i, ptr l)) as ->; [|done].
    apply list_find_Some. split_and!; [done|..].
    - simpl. rewrite Hobj. simpl. by rewrite Hvalid.
    - intros j [|l'] Hj Hlt; simpl; [done|].
      destruct (h !! l') as [obj'|] eqn:Hobj'; simpl; [|done].
      destruct (ident_valid (getIdentifier obj' cat)); [|done].
      intros [= Heq]. by eapply Hfirst. }
  split; [done|].
  unfold SSIdentifierToObject, map_subscript. rewrite Hslot.
  rewrite decide_True by lia.
  replace (Z.to_nat (Z.of_nat i + 1 - 1)) with i by lia.
  by rewrite Hi.
Qed.

Lemma SSMakeObjectMap_first_wins_witness :
  ∃ map : SSObjectMap,
    SSMakeObjectMap refHeap [ptr 0; ptr 1] kCatGJ = Some map ∧
    map !! mkIdentifier kCatGJ 1001 = Some 1 ∧
    SSIdentifierToObject (mkIdentifier kCatGJ 1001) map [ptr 0; ptr 1]
      = Some (ptr 0, map).
Proof.
  apply (SSMakeObjectMap_first_wins refHeap [ptr 0%nat; ptr 1%nat] kCatGJ
           0 0%nat (ObjStar refStar1)).
  - repeat constructor; vm_compute; eauto.
  - vm_compute. discriminate.
  - reflexivity.
  - reflexivity.
  - reflexivity.
  - intros j l' obj' Hj. lia.
Defined.

(** C1, as stated, fails: with two records that share GJ 1001, the map
    resolves the identifier to slot 1, the earlier record, and the lookup
    returns the earlier record, not the later one. *)
Lemma SSMakeObjectMap_last_wins_counterexample :
  getIdentifier (ObjStar refStar1) kCatGJ = mkIdentifier kCatGJ 1001 ∧
  getIdentifier (ObjStar refStar2) kCatGJ = mkIdentifier kCatGJ 1001 ∧
  ident_valid (mkIdentifier kCatGJ 1001) = true ∧
  ∃ map : SSObjectMap,
    SSMakeObjectMap refHeap [ptr 0; ptr 1] kCatGJ = Some map ∧
    map !! mkIdentifier kCatGJ 1001 = Some 1 ∧
    map !! mkIdentifier kCatGJ 1001 ≠ Some 2 ∧
    SSIdentifierToObject (mkIdentifier kCatGJ 1001) map [ptr 0; ptr 1]
      = Some (ptr 0, map) ∧
    SSIdentifierToObject (mkIdentifier kCatGJ 1001) map [ptr 0; ptr 1]
      ≠ Some (ptr 1, map) ∧
    refHeap !! 0%nat = Some (ObjStar refStar1) ∧
    refHeap !! 1%nat = Some (ObjStar refStar2) ∧
    refStar1 ≠ refStar2.
Proof.
  split_and!; try reflexivity.
  eexists. split; [vm_compute; reflexivity|].
  split_and!; try (vm_compute; reflexivity).
  - vm_compute. discriminate.
  - vm_compute. discriminate.
  - intros Heq. apply (f_equal star_Vmag) in Heq. vm_compute in Heq.
    discriminate.
Qed.

(** The lookup does not fault on a map whose slots are in bounds: it
    returns the element at the slot, or the null pointer for no slot. *)
Lemma SSIdentifierToObject_in_bounds ident (map : SSObjectMap)
    (objects : SSObjectVec) :
  slots_in_bounds map objects →
  ∃ p,
    SSIdentifierToObject ident map objects
      = Some (p, (map_subscript ident map).2) ∧
    if decide (0 < slot_of map ident)
    then objects !! Z.to_nat (slot_of map ident - 1) = Some p
    else p = nullptr.
Proof.
  intros Hin. unfold SSIdentifierToObject, slot_of, map_subscript.
  destruct (map !! ident) as [k|] eqn:Hk; simpl.
  - destruct (decide (0 < k)); [|by eexists].
    destruct (lookup_lt_is_Some_2 objects (Z.to_nat (k - 1))) as [p Hp].
    { specialize (Hin _ _ Hk). lia. }
    exists p. by rewrite Hp.
  - by eexists.
Qed.

(** C10: every slot [SSMakeObjectMap] stores lies between 1 and the size
    of the collection, so a lookup in the map over the same collection
    never reads outside it: it returns the element at the slot, or the
    null pointer when the identifier has no slot. *)
Theorem SSMakeObjectMap_slots (h : heap) (objects : SSObjectVec)
    (cat : SSCatalog) :
  vec_allocated h objects →
  Z.of_nat (length objects) ≤ INT_MAX →
  ∃ map : SSObjectMap,
    SSMakeObjectMap h objects cat = Some map ∧
    (∀ ident k, map !! ident = Some k → 1 ≤ k ≤ Z.of_nat (length objects)) ∧
    (∀ ident, ∃ p map',
       SSIdentifierToObject ident map objects = Some (p, map') ∧
       match map !! ident with
       | Some k => objects !! Z.to_nat (k - 1) = Some p
       | None => p = nullptr
       end).
Proof.
  intros Hal Hlen.
  destruct (SSMakeObjectMap_total h objects cat Hal Hlen) as [map Hmap].
  exists map. split; [done|].
  assert (∀ ident k, map !! ident = Some k →
            1 ≤ k ≤ Z.of_nat (length objects)) as Hslots.
  { intros ident k Hk.
    by destruct (SSMakeObjectMap_slot _ _ _ _ _ _ Hmap Hk). }
  split; [done|]. intros ident.
  destruct (SSIdentifierToObject_in_bounds ident map objects) as (p & Hp & Hat).
  { intros i k Hk. apply Hslots in Hk. lia. }
  exists p, (map_subscript ident map).2. split; [done|].
  unfold slot_of in Hat. destruct (map !! ident) as [k|] eqn:Hk; simpl in Hat.
  - apply Hslots in Hk. by rewrite decide_True in Hat by lia.
  - done.
Qed.

Lemma SSMakeObjectMap_slots_witness :
  ∃ map : SSObjectMap,
    SSMakeObjectMap refHeap [ptr 0; nullptr; ptr 1] kCatGJ = Some map ∧
    (∀ ident k, map !! ident = Some k → 1 ≤ k ≤ 3) ∧
    (∀ ident, ∃ p map',
       SSIdentifierToObject ident map [ptr 0; nullptr; ptr 1]
         = Some (p, map') ∧
       match map !! ident with
       | Some k => [ptr 0; nullptr; ptr 1] !! Z.to_nat (k - 1) = Some p
       | None => p = nullptr
       end).
Proof.
  apply (SSMakeObjectMap_slots refHeap [ptr 0%nat; nullptr; ptr 1%nat] kCatGJ).
  - repeat constructor; vm_compute; eauto.
  - vm_compute. discriminate.
Defined.

(** C4, as amended: a lookup never changes the slot an identifier resolves
    to.  It leaves the map as it is when the identifier is present, and
    adds the entry [ident ↦ 0] when it is absent, which every later lookup
    reads as "no match". *)
Theorem SSIdentifierToObject_map (ident : SSIdentifier) (map : SSObjectMap)
    (objects : SSObjectVec) :
  slots_in_bounds map objects →
  ∃ p map',
    SSIdentifierToObject ident map objects = Some (p, map') ∧
    map' = match map !! ident with
           | Some _ => map
           | None => <[ident := 0]> map
           end ∧
    (∀ i, slot_of map' i = slot_of map i) ∧
    slots_in_bounds map' objects.
Proof.
  intros Hin.
  destruct (SSIdentifierToObject_in_bounds ident map objects Hin)
    as (p & Hp & _).
  exists p, (map_subscript ident map).2. split; [done|].
  unfold map_subscript, slot_of.
  destruct (map !! ident) as [k|] eqn:Hk; simpl; [done|].
  split; [done|]. split.
  - intros i. rewrite lookup_insert. case_decide; [subst|done].
    by rewrite Hk.
  - intros i k. rewrite lookup_insert. case_decide; [|by apply Hin].
    intros [= <-]. lia.
Qed.

Lemma SSIdentifierToObject_map_witness :
  ∃ p (map' : SSObjectMap),
    SSIdentifierToObject (mkIdentifier kCatGJ 2002)
      {[ mkIdentifier kCatGJ 1001 := 1 ]} [ptr 0] = Some (p, map') ∧
    map' = match ({[ mkIdentifier kCatGJ 1001 := 1 ]} : SSObjectMap)
                   !! mkIdentifier kCatGJ 2002 with
           | Some _ => {[ mkIdentifier kCatGJ 1001 := 1 ]}
           | None => <[mkIdentifier kCatGJ 2002 := 0]>
                       {[ mkIdentifier kCatGJ 1001 := 1 ]}
           end ∧
    (∀ i, slot_of map' i = slot_of {[ mkIdentifier kCatGJ 1001 := 1 ]} i) ∧
    slots_in_bounds map' [ptr 0].
Proof.
  apply (SSIdentifierToObject_map (mkIdentifier kCatGJ 2002)
           {[ mkIdentifier kCatGJ 1001 := 1 ]} [ptr 0%nat]).
  intros ident k. rewrite lookup_singleton. case_decide; [|done].
  intros [= <-]. simpl. lia.
Defined.

(** C4, as stated, fails: looking up an identifier that the map built from
    the reference collection does not hold changes the map, which gains an
    entry for it. *)
Lemma SSIdentifierToObject_map_counterexample :
  ∃ map map' : SSObjectMap,
    SSMakeObjectMap refHeap [ptr 0; ptr 1] kCatGJ = Some map ∧
    SSIdentifierToObject (mkIdentifier kCatGJ 2002) map [ptr 0; ptr 1]
      = Some (nullptr, map') ∧
    map !! mkIdentifier kCatGJ 2002 = None ∧
    map' !! mkIdentifier kCatGJ 2002 = Some 0 ∧
    map' ≠ map.
Proof.
  eexists _, _. split; [vm_compute; reflexivity|].
  split; [vm_compute; reflexivity|].
  split; [vm_compute; reflexivity|].
  split; [vm_compute; reflexivity|].
  intros Heq.
  apply (f_equal (λ m : SSObjectMap, m !! mkIdentifier kCatGJ 2002)) in Heq.
  vm_compute in Heq. discriminate.
Qed.

(** ** The component expander *)

Section ImporterProperties.

Variable fromString : string → SSIdentifier.
Variable compareSSIdentifiers : SSIdentifier → SSIdentifier → bool.

Lemma fresh_unallocated (h : heap) : h !! fresh (dom h) = None.
Proof. apply not_elem_of_dom, is_fresh. Qed.

Lemma addGJStar_spec (h : heap) (l : loc) (star : SSStar)
    (strGJ strC : string) (stars : SSObjectVec) :
  star_at h l = Some star →
  addGJStar fromString compareSSIdentifiers h (ptr l) strGJ strC stars =
  Some (<[fresh (dom h) := ObjStar (componentStar fromString compareSSIdentifiers star strGJ strC)]> h,
        stars ++ [ptr (fresh (dom h))]).
Proof.
  intros Hstar. unfold addGJStar, heap_new, star_store, star_at.
  unfold star_at in Hstar. rewrite Hstar. simpl.
  rewrite lookup_insert_eq. simpl. rewrite lookup_insert_eq. simpl.
  by rewrite !insert_insert_eq.
Qed.

Lemma star_at_insert_ne (h : heap) (l n : loc) (obj : SSObject) :
  l ≠ n → star_at (<[n := obj]> h) l = star_at h l.
Proof. intros Hne. unfold star_at. by rewrite lookup_insert_ne. Qed.

Lemma star_at_allocated (h : heap) (l : loc) (star : SSStar) :
  star_at h l = Some star → h !! l = Some (ObjStar star).
Proof.
  unfold star_at. destruct (h !! l) as [[s|]|]; simpl; congruence.
Qed.

(** The loop over the component letters allocates one new star per
    letter, at locations that were free, and touches nothing else. *)
Lemma addGJStar_each_spec (l : loc) (star : SSStar) (strGJ : string)
    (comps : list ascii) :
  ∀ (h : heap) (stars : SSObjectVec),
    star_at h l = Some star →
    ∃ (h' : heap) (locs : list loc),
      addGJStar_each fromString compareSSIdentifiers h (ptr l) strGJ comps stars
        = Some (h', stars ++ (ptr <$> locs)) ∧
      NoDup locs ∧
      (∀ x, x ∈ locs → h !! x = None) ∧
      (∀ x, x ∉ locs → h' !! x = h !! x) ∧
      Forall2 (λ x c, h' !! x
                      = Some (ObjStar (componentStar fromString compareSSIdentifiers star strGJ (String c ""))))
              locs comps.
Proof.
  induction comps as [|c rest IH]; intros h stars Hstar.
  { exists h, []. simpl. rewrite app_nil_r.
    split_and!; [done|constructor|by intros ? ?%elem_of_nil|done|constructor]. }
  cbn [addGJStar_each]. rewrite (addGJStar_spec _ _ _ _ _ _ Hstar).
  cbn [mbind option_bind].
  set (n := fresh (dom h)).
  set (h1 := <[n := ObjStar (componentStar fromString compareSSIdentifiers star strGJ (String c ""))]> h).
  assert (h !! n = None) as Hn by apply fresh_unallocated.
  assert (l ≠ n) as Hne.
  { intros ->. apply star_at_allocated in Hstar. congruence. }
  destruct (IH h1 (stars ++ [ptr n])) as (h' & locs & Hrun & Hnd & Hfree & Hframe & Hall).
  { unfold h1. by rewrite star_at_insert_ne. }
  assert (n ∉ locs) as Hnotin.
  { intros Hin. apply Hfree in Hin. unfold h1 in Hin.
    by rewrite lookup_insert_eq in Hin. }
  exists h', (n :: locs). split_and!.
  - rewrite Hrun. by rewrite <- app_assoc.
  - by constructor.
  - intros x [->|Hx]%elem_of_cons; [done|].
    apply Hfree in Hx. unfold h1 in Hx.
    rewrite lookup_insert in Hx. by case_decide.
  - intros x Hx. apply not_elem_of_cons in Hx as [Hxn Hx].
    rewrite (Hframe _ Hx). unfold h1. by rewrite lookup_insert_ne.
  - constructor; [|done].
    rewrite (Hframe _ Hnotin). unfold h1. by rewrite lookup_insert_eq.
Qed.

Lemma length_chars (str : string) : length (chars str) = String.length str.
Proof. induction str as [|c str IH]; simpl; [done|by rewrite IH]. Qed.

Lemma int_of_size_fits (n : nat) :
  Z.of_nat n ≤ INT_MAX → int_of_size n = Z.of_nat n.
Proof.
  unfold int_of_size, INT_MAX. intros Hn.
  rewrite Z.mod_small; lia.
Qed.

(** The identifier of a catalog is found wherever it stands in the
    identifier set, when it is the only one of its catalog. *)
Lemma SSStar_getIdentifier_unique (idents : list SSIdentifier)
    (ident : SSIdentifier) :
  ident ∈ idents →
  (∀ x, x ∈ idents → ident_catalog x = ident_catalog ident → x = ident) →
  SSStar_getIdentifier idents (ident_catalog ident) = ident.
Proof.
  induction idents as [|x rest IH]; intros Hin Huniq.
  { by apply elem_of_nil in Hin. }
  simpl. destruct (decide _) as [Hcat|Hcat].
  - apply Huniq; [by left|done].
  - apply IH.
    + apply elem_of_cons in Hin as [->|Hin]; [done|done].
    + intros y Hy. apply Huniq. by right.
Qed.

Lemma SSAddIdentifier_elem (ident x : SSIdentifier)
    (idents : list SSIdentifier) :
  x ∈ SSAddIdentifier ident idents →
  x ∈ idents ∨ x = ident ∧ ident_valid ident = true.
Proof.
  unfold SSAddIdentifier.
  destruct (ident_valid ident); simpl; [|by left].
  case_bool_decide; simpl; [by left|].
  intros [Hx|Hx]%elem_of_app; [by left|].
  apply list_elem_of_singleton in Hx. by right.
Qed.

Lemma SSAddIdentifier_added (ident : SSIdentifier)
    (idents : list SSIdentifier) :
  ident_valid ident = true → ident ∈ SSAddIdentifier ident idents.
Proof.
  intros Hvalid. unfold SSAddIdentifier. rewrite Hvalid. simpl.
  case_bool_decide; simpl; [done|].
  apply elem_of_app. right. by left.
Qed.

(** The emitted entry answers to the component's designation: a valid GJ
    identifier parsed from it is the entry's GJ identifier, when the
    source entry has none. *)
Lemma componentStar_getIdentifier (star : SSStar) (strGJ strC : string) :
  ident_valid (fromString ("GJ " +:+ strGJ +:+ strC)) = true →
  ident_catalog (fromString ("GJ " +:+ strGJ +:+ strC)) = kCatGJ →
  (∀ x, x ∈ star_idents star → ident_catalog x ≠ kCatGJ) →
  SSStar_getIdentifier
    (star_idents (componentStar fromString compareSSIdentifiers star strGJ strC))
    kCatGJ
  = fromString ("GJ " +:+ strGJ +:+ strC).
Proof.
  unfold componentStar.
  generalize (fromString ("GJ " +:+ strGJ +:+ strC)). intros ident.
  intros Hvalid Hcat Hnone.
  rewrite <- Hcat. apply SSStar_getIdentifier_unique.
  - cbn [star_idents setIdentifiers]. unfold sortIdentifiers.
    rewrite merge_sort_Permutation. by apply SSAddIdentifier_added.
  - cbn [star_idents setIdentifiers]. unfold sortIdentifiers. intros x.
    rewrite merge_sort_Permutation.
    intros [Hx|[-> _]]%SSAddIdentifier_elem Hxcat; [|done].
    apply Hnone in Hx. congruence.
Qed.

(** What the expander does in both cases: one new star per component
    string of the expansion, at locations that were free. *)
Lemma addGJComponentStars_spec (h : heap) (l : loc) (star : SSStar)
    (strGJ comps : string) (stars : SSObjectVec) :
  star_at h l = Some star →
  ∃ (h' : heap) (locs : list loc),
    addGJComponentStars fromString compareSSIdentifiers h (ptr l) strGJ
      comps stars
      = Some (if decide (String.length comps < 2)%nat then 1
              else int_of_size (String.length comps),
              h', stars ++ (ptr <$> locs)) ∧
    NoDup locs ∧
    (∀ x, x ∈ locs → h !! x = None) ∧
    (∀ x, x ∉ locs → h' !! x = h !! x) ∧
    Forall2 (λ x strC, h' !! x = Some (ObjStar (componentStar fromString compareSSIdentifiers star strGJ strC)))
      locs
      (if decide (String.length comps < 2)%nat then [comps]
       else (λ c, String c "") <$> chars comps).
Proof.
  intros Hstar. unfold addGJComponentStars.
  destruct (decide (String.length comps < 2)%nat) as [Hshort|Hlong].
  - rewrite (addGJStar_spec _ _ _ _ _ _ Hstar). simpl.
    assert (h !! fresh (dom h) = None) as Hn by apply fresh_unallocated.
    eexists _, [fresh (dom h)]. split_and!; [done|..].
    + apply NoDup_singleton.
    + by intros x ->%list_elem_of_singleton.
    + intros x Hx. rewrite lookup_insert_ne; [done|].
      intros <-. apply Hx. by left.
    + repeat constructor. by rewrite lookup_insert_eq.
  - destruct (addGJStar_each_spec l star strGJ (chars comps) h stars Hstar)
      as (h' & locs & Hrun & Hnd & Hfree & Hframe & Hall).
    exists h', locs. rewrite Hrun. simpl. split_and!; try done.
    by apply Forall2_fmap_r.
Qed.

(** C6: with fewer than 2 component characters the expander appends one
    entry, identified by "GJ ", the base number and the components
    string, and returns 1; with 2 or more it appends one entry per
    character, each identified by the base number and that character,
    and returns the length of the components string.  The count
    returned is the number of entries appended. *)
Theorem addGJComponentStars_count (h : heap) (l : loc) (star : SSStar)
    (strGJ comps : string) (stars : SSObjectVec) :
  star_at h l = Some star →
  Z.of_nat (String.length comps) ≤ INT_MAX →
  ∃ (h' : heap) (locs : list loc),
    addGJComponentStars fromString compareSSIdentifiers h (ptr l) strGJ
      comps stars
      = Some (Z.of_nat (length locs), h', stars ++ (ptr <$> locs)) ∧
    length locs = (if decide (String.length comps < 2)%nat then 1%nat
                   else String.length comps) ∧
    Forall2
      (λ x strC,
         h' !! x =
         Some (ObjStar
                 (setIdentifiers
                    (sortIdentifiers compareSSIdentifiers
                       (SSAddIdentifier
                          (fromString ("GJ " +:+ strGJ +:+ strC))
                          (star_idents star)))
                    star)))
      locs
      (if decide (String.length comps < 2)%nat then [comps]
       else (λ c, String c "") <$> chars comps).
Proof.
  intros Hstar Hfit.
  destruct (addGJComponentStars_spec h l star strGJ comps stars Hstar)
    as (h' & locs & Hrun & _ & _ & _ & Hall).
  exists h', locs.
  assert (length locs = (if decide (String.length comps < 2)%nat then 1%nat
                         else String.length comps)) as Hlen.
  { apply Forall2_length in Hall. rewrite Hall.
    destruct (decide _); [done|].
    by rewrite length_fmap, length_chars. }
  split_and!; [|done|done].
  rewrite Hrun, Hlen. destruct (decide _); [done|].
  by rewrite int_of_size_fits.
Qed.

(** C8: every entry the expander emits is a new object, a copy of the
    source entry with its own identifier set.  There is one entry per
    component string of the expansion, each holding the fields of the
    source entry and the identifiers of the source entry with that of the
    component added; the new objects are distinct from each other and
    from every object that existed, the source among them, and existing
    objects are left as they were.  So updating one emitted entry in
    place changes that entry and leaves its siblings and the source
    unchanged. *)
Theorem addGJComponentStars_independent (h : heap) (l : loc) (star : SSStar)
    (strGJ comps : string) (stars : SSObjectVec) :
  star_at h l = Some star →
  ∃ (n : Z) (h' : heap) (locs : list loc),
    addGJComponentStars fromString compareSSIdentifiers h (ptr l) strGJ
      comps stars
      = Some (n, h', stars ++ (ptr <$> locs)) ∧
    length locs = (if decide (String.length comps < 2)%nat then 1%nat
                   else String.length comps) ∧
    NoDup locs ∧
    (∀ x, x ∈ locs → h !! x = None) ∧
    (∀ x, x ∉ locs → h' !! x = h !! x) ∧
    Forall2
      (λ x strC,
         h' !! x =
         Some (ObjStar
                 (setIdentifiers
                    (sortIdentifiers compareSSIdentifiers
                       (SSAddIdentifier
                          (fromString ("GJ " +:+ strGJ +:+ strC))
                          (star_idents star)))
                    star)))
      locs
      (if decide (String.length comps < 2)%nat then [comps]
       else (λ c, String c "") <$> chars comps) ∧
    (∀ x, x ∈ locs →
       ∃ s, h' !! x = Some (ObjStar s) ∧
            setIdentifiers (star_idents star) s = star) ∧
    (∀ i j x y (update : SSStar → SSStar),
       i ≠ j → locs !! i = Some x → locs !! j = Some y →
       ∃ (s : SSStar) (h'' : heap),
         star_at h' x = Some s ∧
         star_store h' x update = Some h'' ∧
         star_at h'' x = Some (update s) ∧
         h'' !! y = h' !! y ∧
         h'' !! l = h !! l).
Proof.
  intros Hstar.
  destruct (addGJComponentStars_spec h l star strGJ comps stars Hstar)
    as (h' & locs & Hrun & Hnd & Hfree & Hframe & Hall).
  eexists _, h', locs. split_and!; try done.
  - apply Forall2_length in Hall. rewrite Hall.
    destruct (decide _); [done|].
    by rewrite length_fmap, length_chars.
  - intros x Hx. apply list_elem_of_lookup in Hx as [i Hi].
    destruct (Forall2_lookup_l _ _ _ _ _ Hall Hi) as (strC & _ & Hx).
    eexists. split; [done|]. by destruct star.
  - intros i j x y update Hij Hi Hj.
    destruct (Forall2_lookup_l _ _ _ _ _ Hall Hi) as (strC & _ & Hx).
    unfold star_store, star_at. rewrite Hx. simpl.
    eexists _, _. split; [done|]. split; [done|].
    rewrite lookup_insert_eq. simpl. split; [done|].
    assert (x ≠ y) as Hxy.
    { intros ->. apply Hij. by eapply NoDup_lookup. }
    assert (x ≠ l) as Hxl.
    { intros ->. apply star_at_allocated in Hstar.
      rewrite Hfree in Hstar; [done|]. by eapply list_elem_of_lookup_2. }
    rewrite !lookup_insert_ne by done. split; [done|].
    apply Hframe. intros Hl. apply Hfree in Hl.
    apply star_at_allocated in Hstar. congruence.
Qed.

(** A usable CNS3 line raises the import count by the number of entries
    its components expand to. *)
Lemma readCNS3_line_count (cns3Star : string → SSStar) (line : string)
    (rest : list string) (numStars : Z) (h : heap) (stars : SSObjectVec) :
  let comps := trim (substr line 8 2) in
  (119 ≤ String.length line)%nat →
  string_empty (trim (substr line 12 8)) = false →
  string_empty (trim (substr line 21 8)) = false →
  Z.of_nat (String.length comps) ≤ INT_MAX →
  ∃ (h' : heap) (locs : list loc),
    length locs = (if decide (String.length comps < 2)%nat then 1%nat
                   else String.length comps) ∧
    (INT_MIN ≤ numStars + Z.of_nat (length locs) ≤ INT_MAX →
     readCNS3 fromString compareSSIdentifiers cns3Star (line :: rest)
       numStars h stars
     = readCNS3 fromString compareSSIdentifiers cns3Star rest
         (numStars + Z.of_nat (length locs)) h' (stars ++ (ptr <$> locs))).
Proof.
  intros comps Hlen HRA HDec Hfit.
  set (h1 := <[fresh (dom h) := ObjStar (cns3Star line)]> h).
  destruct (addGJComponentStars_spec h1 (fresh (dom h)) (cns3Star line)
              (trim (substr line 2 6)) comps stars)
    as (h' & locs & Hrun & _ & _ & _ & Hall).
  { unfold star_at, h1. by rewrite lookup_insert_eq. }
  assert (length locs = (if decide (String.length comps < 2)%nat then 1%nat
                         else String.length comps)) as Hcount.
  { apply Forall2_length in Hall. rewrite Hall.
    destruct (decide _); [done|]. by rewrite length_fmap, length_chars. }
  exists h', locs. split; [done|]. intros Hsum.
  cbn [readCNS3]. rewrite decide_False by lia.
  rewrite HRA, HDec. cbn [orb]. unfold heap_new.
  fold h1. fold comps. rewrite Hrun. cbn [mbind option_bind].
  replace (if decide (String.length comps < 2)%nat then 1
           else int_of_size (String.length comps))
    with (Z.of_nat (length locs)).
  - by rewrite int_add_Some.
  - rewrite Hcount. destruct (decide _); [done|].
    by rewrite int_of_size_fits.
Qed.

End ImporterProperties.

(** Base number 1001 with components AB: two entries, GJ 1001A and
    GJ 1001B, at two new locations. *)
Example addGJComponentStars_1001_AB :
  addGJComponentStars sampleFromString sampleCompare provHeap (ptr 0)
    "1001" "AB" [] =
  Some (2,
        <[2%nat := ObjStar (setIdentifiers
                              [mkIdentifier kCatGJ 10012;
                               mkIdentifier kCatHD 48915] provStar)]>
          (<[1%nat := ObjStar (setIdentifiers
                                 [mkIdentifier kCatGJ 10011;
                                  mkIdentifier kCatHD 48915] provStar)]>
             provHeap),
        [ptr 1; ptr 2]).
Proof. vm_compute. reflexivity. Qed.

Lemma addGJComponentStars_count_witness :
  ∃ (h' : heap) (locs : list loc),
    addGJComponentStars sampleFromString sampleCompare provHeap (ptr 0)
      "1001" "AB" []
      = Some (Z.of_nat (length locs), h', [] ++ (ptr <$> locs)) ∧
    length locs = 2%nat ∧
    Forall2
      (λ x strC,
         h' !! x =
         Some (ObjStar
                 (setIdentifiers
                    (sortIdentifiers sampleCompare
                       (SSAddIdentifier
                          (sampleFromString ("GJ " +:+ "1001" +:+ strC))
                          (star_idents provStar)))
                    provStar)))
      locs ["A"; "B"].
Proof.
  apply (addGJComponentStars_count sampleFromString sampleCompare provHeap
           0%nat provStar "1001" "AB" []).
  - reflexivity.
  - vm_compute. discriminate.
Defined.

Lemma addGJComponentStars_independent_witness :
  ∃ (n : Z) (h' : heap) (locs : list loc),
    addGJComponentStars sampleFromString sampleCompare provHeap (ptr 0)
      "1001" "AB" []
      = Some (n, h', [] ++ (ptr <$> locs)) ∧
    length locs = 2%nat ∧
    NoDup locs ∧
    (∀ x, x ∈ locs → provHeap !! x = None) ∧
    (∀ x, x ∉ locs → h' !! x = provHeap !! x) ∧
    Forall2
      (λ x strC,
         h' !! x =
         Some (ObjStar
                 (setIdentifiers
                    (sortIdentifiers sampleCompare
                       (SSAddIdentifier
                          (sampleFromString ("GJ " +:+ "1001" +:+ strC))
                          (star_idents provStar)))
                    provStar)))
      locs ["A"; "B"] ∧
    (∀ x, x ∈ locs →
       ∃ s, h' !! x = Some (ObjStar s) ∧
            setIdentifiers (star_idents provStar) s = provStar) ∧
    (∀ i j x y (update : SSStar → SSStar),
       i ≠ j → locs !! i = Some x → locs !! j = Some y →
       ∃ (s : SSStar) (h'' : heap),
         star_at h' x = Some s ∧
         star_store h' x update = Some h'' ∧
         star_at h'' x = Some (update s) ∧
         h'' !! y = h' !! y ∧
         h'' !! 0%nat = provHeap !! 0%nat).
Proof.
  apply (addGJComponentStars_independent sampleFromString sampleCompare
           provHeap 0%nat provStar "1001" "AB" []).
  reflexivity.
Defined.

(** Changing the magnitude of the entry GJ 1001A leaves the entry
    GJ 1001B as it was emitted. *)
Example addGJComponentStars_sibling_magnitude :
  ∃ h' h'' : heap,
    addGJComponentStars sampleFromString sampleCompare provHeap (ptr 0)
      "1001" "AB" [] = Some (2, h', [ptr 1; ptr 2]) ∧
    star_store h' 1%nat (setVMagnitude 7%float) = Some h'' ∧
    star_Vmag <$> star_at h'' 1%nat = Some 7%float ∧
    star_at h'' 2%nat = star_at h' 2%nat ∧
    star_Vmag <$> star_at h'' 2%nat = Some 1.5%float.
Proof.
  eexists _, _. split; [vm_compute; reflexivity|].
  split; [vm_compute; reflexivity|].
  split_and!; vm_compute; reflexivity.
Qed.

(** ** The importers *)

(** C9: when the input file does not open, both importers return the
    count 0 and leave the heap and the output collection as they were;
    nothing faults. *)
Theorem import_unopened (fromString : string → SSIdentifier)
    (compareSSIdentifiers : SSIdentifier → SSIdentifier → bool)
    (openFile : string → option (list string))
    (cns3Star : string → SSStar)
    (gjacAngles : string → float * float * float * float)
    (hipDistance : SSStar → float)
    (filename : string) (nameMap : SSIdentifierNameMap)
    (gjACStars hipStars : SSObjectVec) (h : heap) (stars : SSObjectVec) :
  openFile filename = None →
  SSImportGJCNS3 fromString compareSSIdentifiers openFile cns3Star
    filename nameMap gjACStars h stars = Some (0, h, stars) ∧
  SSImportGJAC fromString compareSSIdentifiers openFile gjacAngles hipDistance
    filename hipStars h stars = Some (0, h, stars).
Proof.
  intros Hopen. unfold SSImportGJCNS3, SSImportGJAC. by rewrite Hopen.
Qed.

Lemma import_unopened_witness :
  SSImportGJCNS3 sampleFromString sampleCompare noFiles sampleStar
    "cns3.dat" [] [ptr 0] provHeap [ptr 0] = Some (0, provHeap, [ptr 0]) ∧
  SSImportGJAC sampleFromString sampleCompare noFiles sampleAngles
    sampleDistance "gjac.dat" [ptr 0] provHeap [ptr 0]
    = Some (0, provHeap, [ptr 0]).
Proof.
  apply (import_unopened sampleFromString sampleCompare noFiles sampleStar
           sampleAngles sampleDistance "cns3.dat" [] [ptr 0%nat] [ptr 0%nat]
           provHeap [ptr 0%nat]).
  reflexivity.
Defined.

(** ** The cross-match and the names *)

Example crossMatchStar_matched :
  crossMatchStar sampleCompare sampleNames [ptr 0] crossMatchHeap
    {[ mkIdentifier kCatGJ 10011 := 1 ]} (ptr 1) =
  Some (<[1%nat := ObjStar
            (mkStar ["Sirius"]
               [mkIdentifier kCatGJ 10011; mkIdentifier kCatHD 48915;
                mkIdentifier kCatHIP 323490]
               (mkSpherical 10%float 20%float 8.5%float)
               (mkSpherical 5%float 6%float 0.5%float)
               1.5%float 2%float "A1V")]> crossMatchHeap,
        {[ mkIdentifier kCatGJ 10011 := 1 ]}).
Proof. vm_compute. reflexivity. Qed.

(** The cross-match step on a matched entry: the radial velocity it
    leaves is the reference value unless that value is infinite. *)
Lemma crossMatchStar_radial_velocity
    (compareSSIdentifiers : SSIdentifier → SSIdentifier → bool)
    (nameMap : SSIdentifierNameMap) (gjACStars : SSObjectVec) (h : heap)
    (map map' : SSObjectMap) (l a : loc) (star acStar : SSStar) :
  star_at h l = Some star →
  SSIdentifierToObject (SSStar_getIdentifier (star_idents star) kCatGJ)
    map gjACStars = Some (ptr a, map') →
  star_at h a = Some acStar →
  ∃ h' : heap,
    crossMatchStar compareSSIdentifiers nameMap gjACStars h map (ptr l)
      = Some (h', map') ∧
    getRadVel <$> star_at h' l =
    Some (if is_infinity (getRadVel acStar) then getRadVel star
          else getRadVel acStar).
Proof.
  intros Hstar Hfound HacStar.
  pose proof (star_at_allocated _ _ _ Hstar) as Hl.
  pose proof (star_at_allocated _ _ _ HacStar) as Ha.
  unfold crossMatchStar. cbn [SSGetStarPtr]. rewrite Hl. simpl.
  rewrite Hstar. simpl. rewrite Hfound. simpl. rewrite Ha. simpl.
  rewrite HacStar. simpl.
  unfold star_store, star_at. rewrite Hl. simpl.
  rewrite lookup_insert_eq. simpl.
  destruct (decide _).
  - rewrite lookup_insert_eq. simpl. eexists. split; [done|].
    by rewrite lookup_insert_eq.
  - eexists. split; [done|]. by rewrite lookup_insert_eq.
Qed.

(** C2 fails on the code: importing the sample line against the reference
    entry GJ 1001 A, the entry GJ 1001A is cross-matched; its provisional
    radial velocity 0.25 is replaced by the finite radial velocity 0.5 of
    the reference entry.  The unmatched entry GJ 1001B keeps 0.25. *)
Theorem SSImportGJCNS3_radial_velocity :
  getRadVel (sampleStar sampleLine) = 0.25%float ∧
  getRadVel accurateStar = 0.5%float ∧
  is_infinity 0.25 = false ∧ is_infinity 0.5 = false ∧
  ∃ h' : heap,
    SSImportGJCNS3 sampleFromString sampleCompare sampleFiles sampleStar
      "cns3.dat" sampleNames [ptr 0] accurateHeap []
      = Some (2, h', [ptr 2; ptr 3]) ∧
    (λ s, SSStar_getIdentifier (star_idents s) kCatGJ) <$> star_at h' 2%nat
      = Some (mkIdentifier kCatGJ 10011) ∧
    getRadVel <$> star_at h' 2%nat = Some 0.5%float ∧
    getRadVel <$> star_at h' 3%nat = Some 0.25%float.
Proof.
  split_and!; try reflexivity.
  eexists. split; [vm_compute; reflexivity|].
  split_and!; vm_compute; reflexivity.
Qed.

(** No identifiers, no names. *)
Lemma SSIdentifiersToNames_nil (nameMap : SSIdentifierNameMap) :
  SSIdentifiersToNames [] nameMap = [].
Proof.
  unfold SSIdentifiersToNames.
  induction nameMap as [|e rest IH]; [done|].
  rewrite filter_cons_False; [done|]. by intros ?%elem_of_nil.
Qed.

(** The cross-match step on an entry without a reference entry: the
    heap, and with it the entry's names, stay as they were, whatever the
    name table holds. *)
Lemma crossMatchStar_unmatched
    (compareSSIdentifiers : SSIdentifier → SSIdentifier → bool)
    (nameMap : SSIdentifierNameMap) (gjACStars : SSObjectVec) (h : heap)
    (map map' : SSObjectMap) (l : loc) (star : SSStar) :
  star_at h l = Some star →
  SSIdentifierToObject (SSStar_getIdentifier (star_idents star) kCatGJ)
    map gjACStars = Some (nullptr, map') →
  crossMatchStar compareSSIdentifiers nameMap gjACStars h map (ptr l)
    = Some (h, map').
Proof.
  intros Hstar Hfound.
  pose proof (star_at_allocated _ _ _ Hstar) as Hl.
  unfold crossMatchStar. cbn [SSGetStarPtr]. rewrite Hl. simpl.
  rewrite Hstar. simpl. rewrite Hfound. simpl.
  by rewrite SSIdentifiersToNames_nil.
Qed.

(** C3 fails on the code: the entry GJ 1001B of the sample line has no
    reference entry; its identifier set holds HD 48915, which the name
    table names, yet the entry is left without names, because the names
    are looked up from the identifiers gathered in the matched branch
    only. *)
Theorem SSImportGJCNS3_unmatched_names :
  ∃ (h' : heap) (s : SSStar),
    SSImportGJCNS3 sampleFromString sampleCompare sampleFiles sampleStar
      "cns3.dat" sampleNames [ptr 0] accurateHeap []
      = Some (2, h', [ptr 2; ptr 3]) ∧
    star_at h' 3%nat = Some s ∧
    star_idents s = [mkIdentifier kCatGJ 10012; mkIdentifier kCatHD 48915] ∧
    SSIdentifiersToNames (star_idents s) sampleNames = ["Sirius"] ∧
    star_names s = [].
Proof.
  eexists _, _. split; [vm_compute; reflexivity|].
  split; [vm_compute; reflexivity|].
  split_and!; vm_compute; reflexivity.
Qed.

(** ** Angles *)

(** C5, as amended: missing minute and second groups count as zero, and
    the combined value |D| + M/60 + S/3600 is negated exactly when the
    first character of the string is '-'; M and S enter with their own
    signs. *)
Theorem strtodeg_value (sscanf_lf3 : string → list float) (str : string) :
  strtodeg sscanf_lf3 str =
  let '(deg, min, sec) :=
    match sscanf_lf3 (c_str str) with
    | [] => (0, 0, 0)
    | [deg] => (deg, 0, 0)
    | [deg; min] => (deg, min, 0)
    | deg :: min :: sec :: _ => (deg, min, sec)
    end%float in
  let value := (abs deg + min / 60 + sec / 3600)%float in
  if bool_decide (head (chars (c_str str)) = Some "-"%char)
  then (- value)%float
  else value.
Proof.
  unfold strtodeg.
  assert (∀ v : float,
            match c_str str with
            | String "-" _ => (- v)%float
            | _ => v
            end =
            if bool_decide (head (chars (c_str str)) = Some "-"%char)
            then (- v)%float else v) as ->.
  { intros v. destruct (c_str str) as [|c rest]; [done|]. simpl.
    case_bool_decide as Hc.
    - injection Hc as ->. done.
    - destruct c as [[] [] [] [] [] [] [] []]; try done. }
  by destruct (sscanf_lf3 (c_str str)) as [|deg [|min [|sec rest]]].
Qed.

Example strtodeg_dms :
  strtodeg sscanf_decimal "12 30 56.25" = 12.515625%float.
Proof. vm_compute. reflexivity. Qed.

Example strtodeg_degrees_only : strtodeg sscanf_decimal "-16.5" = (-16.5)%float.
Proof. vm_compute. reflexivity. Qed.

Example strtodeg_minus_zero : strtodeg sscanf_decimal "-0 30" = (-0.5)%float.
Proof. vm_compute. reflexivity. Qed.

(** C5, as stated, fails: in "10 -30" the sign stands on the minute group;
    the groups read are 10 and -30, and the result is 9.5, which is
    neither -(10 + 30/60) nor -(10 - 30/60): the combined value is not
    negated. *)
Lemma strtodeg_sign_counterexample :
  sscanf_decimal "10 -30" = [10%float; (-30)%float] ∧
  strtodeg sscanf_decimal "10 -30" = 9.5%float ∧
  strtodeg sscanf_decimal "10 -30" ≠ (- (abs 10 + 30 / 60 + 0 / 3600))%float ∧
  strtodeg sscanf_decimal "10 -30" ≠ (- (abs 10 + -30 / 60 + 0 / 3600))%float.
Proof.
  split_and!; try (vm_compute; reflexivity).
  - intros Heq. apply (f_equal (λ x, PrimFloat.ltb x 0%float)) in Heq.
    vm_compute in Heq. discriminate.
  - intros Heq. apply (f_equal (λ x, PrimFloat.ltb x 0%float)) in Heq.
    vm_compute in Heq. discriminate.
Qed.

(** ** Proper motion *)

Section ProperMotionProperties.

Import Stdlib.Reals.Reals Stdlib.micromega.Lra.
Local Open Scope R_scope.






End ProperMotionProperties.

(** The conversions in the arithmetic of the source, written out. *)
Lemma pm_pa_to_pmra_pmdec_binary64 (sin cos : float → float)
    (atan2 : float → float → float) (pm pa dec : float) :
  pm_pa_to_pmra_pmdec (binary64 sin cos atan2) pm pa dec
  = ((pm * sin pa / cos dec)%float, (pm * cos pa)%float).
Proof. reflexivity. Qed.

Lemma pmra_pmdec_to_pm_pa_binary64 (sin cos : float → float)
    (atan2 : float → float → float) (pmra pmdec dec : float) :
  pmra_pmdec_to_pm_pa (binary64 sin cos atan2) pmra pmdec dec
  = (let pmra := (pmra * cos dec)%float in
     (PrimFloat.sqrt (pmra * pmra + pmdec * pmdec)%float,
      if (pmra <? 0)%float then (atan2 pmra pmdec + 2 * M_PI)%float
      else atan2 pmra pmdec)).
Proof. reflexivity. Qed.


(** * Further properties *)

(** ** Cross-matching through an object map *)

(** What the lookup does on a map as [SSMakeObjectMap] built it. *)
Lemma SSIdentifierToObject_built (h : heap) (objects : SSObjectVec)
    (cat : SSCatalog) (map : SSObjectMap) (ident : SSIdentifier) :
  SSMakeObjectMap h objects cat = Some map →
  SSIdentifierToObject ident map objects =
  match list_find (λ p, entry_ident h cat p = Some ident) objects with
  | Some (_, p) => Some (p, map)
  | None => Some (nullptr, <[ident := 0]> map)
  end.
Proof.
  intros Hmap. unfold SSIdentifierToObject, map_subscript.
  rewrite (SSMakeObjectMap_lookup _ _ _ _ ident Hmap).
  destruct (list_find _ _) as [[j p]|] eqn:Hfind; simpl; [|done].
  apply list_find_Some in Hfind as (Hj & _ & _).
  rewrite decide_True by lia.
  replace (Z.to_nat (Z.of_nat j + 1 - 1)) with j by lia.
  by rewrite Hj.
Qed.

Lemma entry_ident_Some (h : heap) (cat : SSCatalog) (p : SSObjectPtr)
    (ident : SSIdentifier) :
  entry_ident h cat p = Some ident ↔
  ∃ l obj, p = ptr l ∧ h !! l = Some obj ∧
           getIdentifier obj cat = ident ∧ ident_valid ident = true.
Proof.
  split.
  - destruct p as [|l]; simpl; [done|].
    destruct (h !! l) as [obj|] eqn:Hobj; simpl; [|done].
    destruct (ident_valid (getIdentifier obj cat)) eqn:Hv; [|done].
    intros [= <-]. by exists l, obj.
  - intros (l & obj & -> & Hobj & <- & Hv). simpl. rewrite Hobj. simpl.
    by rewrite Hv.
Qed.

(** A lookup that finds a record finds one of the collection that
    carries the identifier looked up, under the tag the map was built
    for; the lookup leaves the map as it was. *)
Theorem SSIdentifierToObject_sound (h : heap) (objects : SSObjectVec)
    (cat : SSCatalog) (map map' : SSObjectMap) (ident : SSIdentifier)
    (l : loc) :
  SSMakeObjectMap h objects cat = Some map →
  SSIdentifierToObject ident map objects = Some (ptr l, map') →
  map' = map ∧ ptr l ∈ objects ∧ ident_valid ident = true ∧
  ∃ obj, h !! l = Some obj ∧ getIdentifier obj cat = ident.
Proof.
  intros Hmap. rewrite (SSIdentifierToObject_built _ _ _ _ _ Hmap).
  destruct (list_find _ _) as [[j p]|] eqn:Hfind; [|done].
  intros [= -> <-].
  apply list_find_Some in Hfind as (Hj & Hp & _).
  apply entry_ident_Some in Hp as (l' & obj & [= <-] & Hobj & Hid & Hv).
  split_and!; [done|by eapply list_elem_of_lookup_2|done|by exists obj].
Qed.

Lemma SSIdentifierToObject_sound_witness :
  {[ mkIdentifier kCatGJ 1001 := 1 ]} = ({[ mkIdentifier kCatGJ 1001 := 1 ]} : SSObjectMap) ∧
  ptr 0%nat ∈ [ptr 0%nat; ptr 1%nat] ∧
  ident_valid (mkIdentifier kCatGJ 1001) = true ∧
  ∃ obj, refHeap !! 0%nat = Some obj ∧
         getIdentifier obj kCatGJ = mkIdentifier kCatGJ 1001.
Proof.
  apply (SSIdentifierToObject_sound refHeap [ptr 0%nat; ptr 1%nat] kCatGJ
           {[ mkIdentifier kCatGJ 1001 := 1 ]} {[ mkIdentifier kCatGJ 1001 := 1 ]}
           (mkIdentifier kCatGJ 1001) 0%nat).
  - vm_compute. reflexivity.
  - vm_compute. reflexivity.
Defined.

(** Every record of the collection that carries a valid identifier under
    the tag is reachable: the lookup of its identifier does not fault and
    returns a record, never the null pointer. *)
Theorem SSIdentifierToObject_complete (h : heap) (objects : SSObjectVec)
    (cat : SSCatalog) (map : SSObjectMap) (l : loc) (obj : SSObject) :
  SSMakeObjectMap h objects cat = Some map →
  ptr l ∈ objects →
  h !! l = Some obj →
  ident_valid (getIdentifier obj cat) = true →
  ∃ l' obj',
    SSIdentifierToObject (getIdentifier obj cat) map objects
      = Some (ptr l', map) ∧
    h !! l' = Some obj' ∧ getIdentifier obj' cat = getIdentifier obj cat.
Proof.
  intros Hmap Hin Hobj Hv.
  rewrite (SSIdentifierToObject_built _ _ _ _ _ Hmap).
  destruct (list_find_elem_of
              (λ p, entry_ident h cat p = Some (getIdentifier obj cat))
              objects (ptr l)) as [[j p] Hfind]; [done|..].
  { apply entry_ident_Some. by exists l, obj. }
  rewrite Hfind.
  apply list_find_Some in Hfind as (_ & Hp & _).
  apply entry_ident_Some in Hp as (l' & obj' & -> & Hobj' & Hid & _).
  by exists l', obj'.
Qed.

Lemma SSIdentifierToObject_complete_witness :
  ∃ l' obj',
    SSIdentifierToObject (getIdentifier (ObjStar refStar2) kCatGJ)
      {[ mkIdentifier kCatGJ 1001 := 1 ]} [ptr 0; ptr 1]
      = Some (ptr l', {[ mkIdentifier kCatGJ 1001 := 1 ]}) ∧
    refHeap !! l' = Some obj' ∧
    getIdentifier obj' kCatGJ = getIdentifier (ObjStar refStar2) kCatGJ.
Proof.
  apply (SSIdentifierToObject_complete refHeap [ptr 0%nat; ptr 1%nat] kCatGJ
           {[ mkIdentifier kCatGJ 1001 := 1 ]} 1%nat (ObjStar refStar2)).
  - vm_compute. reflexivity.
  - right. left.
  - reflexivity.
  - reflexivity.
Defined.

(** An identifier that no record of the collection carries as a valid
    identifier under the tag, the null identifier among them, finds
    nothing: the lookup returns the null pointer and records the
    identifier in the map with slot 0. *)
Theorem SSIdentifierToObject_miss (h : heap) (objects : SSObjectVec)
    (cat : SSCatalog) (map : SSObjectMap) (ident : SSIdentifier) :
  SSMakeObjectMap h objects cat = Some map →
  (∀ l obj, ptr l ∈ objects → h !! l = Some obj →
     getIdentifier obj cat = ident → ident_valid ident = false) →
  SSIdentifierToObject ident map objects
    = Some (nullptr, <[ident := 0]> map) ∧
  map !! ident = None.
Proof.
  intros Hmap Hnone.
  assert (list_find (λ p, entry_ident h cat p = Some ident) objects = None)
    as Hfind.
  { apply list_find_None, Forall_forall. intros p Hp Hentry.
    apply entry_ident_Some in Hentry as (l & obj & -> & Hobj & Hid & Hv).
    rewrite (Hnone l obj Hp Hobj Hid) in Hv. done. }
  rewrite (SSIdentifierToObject_built _ _ _ _ _ Hmap), Hfind.
  split; [done|].
  by rewrite (SSMakeObjectMap_lookup _ _ _ _ ident Hmap), Hfind.
Qed.

Lemma SSIdentifierToObject_miss_witness :
  SSIdentifierToObject SSIdentifier_null
    {[ mkIdentifier kCatGJ 1001 := 1 ]} [ptr 0; ptr 1]
    = Some (nullptr,
            <[SSIdentifier_null := 0]> {[ mkIdentifier kCatGJ 1001 := 1 ]}) ∧
  ({[ mkIdentifier kCatGJ 1001 := 1 ]} : SSObjectMap) !! SSIdentifier_null
    = None.
Proof.
  apply (SSIdentifierToObject_miss refHeap [ptr 0%nat; ptr 1%nat] kCatGJ
           {[ mkIdentifier kCatGJ 1001 := 1 ]} SSIdentifier_null).
  - vm_compute. reflexivity.
  - intros l obj _ _ _. reflexivity.
Defined.

Lemma SSIdentifierToObject_pointer (ident : SSIdentifier) (map : SSObjectMap)
    (objects : SSObjectVec) :
  (fst <$> SSIdentifierToObject ident map objects) =
  if decide (0 < slot_of map ident)
  then objects !! Z.to_nat (slot_of map ident - 1)
  else Some nullptr.
Proof.
  unfold SSIdentifierToObject, map_subscript, slot_of.
  destruct (map !! ident) as [k|]; simpl; [|done].
  destruct (decide (0 < k)); [|done].
  by destruct (objects !! Z.to_nat (k - 1)).
Qed.

Lemma map_subscript_slot (a b : SSIdentifier) (map : SSObjectMap) :
  slot_of (map_subscript a map).2 b = slot_of map b.
Proof.
  unfold map_subscript, slot_of.
  destruct (map !! a) as [k|] eqn:Ha; simpl; [done|].
  rewrite lookup_insert. case_decide; [subst|done]. by rewrite Ha.
Qed.

Lemma SSIdentifierToObject_map_after (ident : SSIdentifier)
    (map map' : SSObjectMap) (objects : SSObjectVec) (p : SSObjectPtr) :
  SSIdentifierToObject ident map objects = Some (p, map') →
  map' = (map_subscript ident map).2.
Proof.
  unfold SSIdentifierToObject.
  destruct (map_subscript ident map) as [k m1]. simpl.
  destruct (decide (0 < k)); [|by intros [= _ <-]].
  destruct (objects !! Z.to_nat (k - 1)); simpl; [|done].
  by intros [= _ <-].
Qed.

(** Lookups do not disturb one another: after a lookup, the pointer that
    the lookup of any identifier returns is the one it would have
    returned before, and the same lookup made again returns the same
    pointer and leaves the map as the first one left it. *)
Theorem SSIdentifierToObject_stable (a b : SSIdentifier)
    (map map' : SSObjectMap) (objects : SSObjectVec) (p : SSObjectPtr) :
  SSIdentifierToObject a map objects = Some (p, map') →
  (fst <$> SSIdentifierToObject b map' objects)
    = (fst <$> SSIdentifierToObject b map objects) ∧
  SSIdentifierToObject a map' objects = Some (p, map').
Proof.
  intros Hfirst.
  pose proof (SSIdentifierToObject_map_after _ _ _ _ _ Hfirst) as ->.
  assert (∀ c, (fst <$> SSIdentifierToObject c (map_subscript a map).2 objects)
               = (fst <$> SSIdentifierToObject c map objects)) as Hsame.
  { intros c. by rewrite !SSIdentifierToObject_pointer, map_subscript_slot. }
  split; [done|].
  specialize (Hsame a). rewrite Hfirst in Hsame. simpl in Hsame.
  destruct (SSIdentifierToObject a (map_subscript a map).2 objects)
    as [[q m2]|] eqn:Hsecond; [|done].
  injection Hsame as ->.
  pose proof (SSIdentifierToObject_map_after _ _ _ _ _ Hsecond) as ->.
  f_equal. f_equal.
  unfold map_subscript. destruct (map !! a) as [k|] eqn:Ha; simpl.
  - by rewrite Ha.
  - by rewrite lookup_insert_eq.
Qed.

Lemma SSIdentifierToObject_stable_witness :
  (fst <$> SSIdentifierToObject (mkIdentifier kCatGJ 1001)
     (<[mkIdentifier kCatGJ 2002 := 0]> {[ mkIdentifier kCatGJ 1001 := 1 ]})
     [ptr 0; ptr 1])
    = (fst <$> SSIdentifierToObject (mkIdentifier kCatGJ 1001)
         {[ mkIdentifier kCatGJ 1001 := 1 ]} [ptr 0; ptr 1]) ∧
  SSIdentifierToObject (mkIdentifier kCatGJ 2002)
    (<[mkIdentifier kCatGJ 2002 := 0]> {[ mkIdentifier kCatGJ 1001 := 1 ]})
    [ptr 0; ptr 1]
    = Some (nullptr,
            <[mkIdentifier kCatGJ 2002 := 0]> {[ mkIdentifier kCatGJ 1001 := 1 ]}).
Proof.
  apply (SSIdentifierToObject_stable (mkIdentifier kCatGJ 2002)
           (mkIdentifier kCatGJ 1001) {[ mkIdentifier kCatGJ 1001 := 1 ]}
           (<[mkIdentifier kCatGJ 2002 := 0]> {[ mkIdentifier kCatGJ 1001 := 1 ]})
           [ptr 0%nat; ptr 1%nat] nullptr).
  vm_compute. reflexivity.
Defined.

(** Records appended to a collection do not move the identifiers the
    collection already resolves: the map of the longer collection holds
    every entry of the map of the shorter one. *)
Theorem SSMakeObjectMap_app (h : heap) (objects more : SSObjectVec)
    (cat : SSCatalog) (map map' : SSObjectMap) :
  SSMakeObjectMap h objects cat = Some map →
  SSMakeObjectMap h (objects ++ more) cat = Some map' →
  map ⊆ map'.
Proof.
  intros Hmap Hmap'. apply map_subseteq_spec. intros ident k.
  rewrite (SSMakeObjectMap_lookup _ _ _ _ ident Hmap),
          (SSMakeObjectMap_lookup _ _ _ _ ident Hmap').
  destruct (list_find _ objects) as [[j p]|] eqn:Hfind; [|done].
  by rewrite (list_find_app_l _ _ more _ _ Hfind).
Qed.

Lemma SSMakeObjectMap_app_witness :
  ({[ mkIdentifier kCatGJ 1001 := 1 ]} : SSObjectMap)
    ⊆ {[ mkIdentifier kCatGJ 1001 := 1 ]}.
Proof.
  apply (SSMakeObjectMap_app refHeap [ptr 0%nat] [ptr 1%nat] kCatGJ).
  - vm_compute. reflexivity.
  - vm_compute. reflexivity.
Defined.

(** Two identifiers never share a slot: a slot of the map belongs to one
    identifier, that of the record at the slot. *)
Theorem SSMakeObjectMap_slot_inj (h : heap) (objects : SSObjectVec)
    (cat : SSCatalog) (map : SSObjectMap) (a b : SSIdentifier) (k : Z) :
  SSMakeObjectMap h objects cat = Some map →
  map !! a = Some k → map !! b = Some k → a = b.
Proof.
  intros Hmap Ha Hb.
  destruct (SSMakeObjectMap_slot _ _ _ _ _ _ Hmap Ha) as (_ & p & Hp & Hpa).
  destruct (SSMakeObjectMap_slot _ _ _ _ _ _ Hmap Hb) as (_ & q & Hq & Hqb).
  congruence.
Qed.

Lemma SSMakeObjectMap_slot_inj_witness :
  mkIdentifier kCatGJ 1001 = mkIdentifier kCatGJ 1001.
Proof.
  apply (SSMakeObjectMap_slot_inj refHeap [ptr 0%nat; ptr 1%nat] kCatGJ
           {[ mkIdentifier kCatGJ 1001 := 1 ]} _ _ 1).
  - vm_compute. reflexivity.
  - vm_compute. reflexivity.
  - vm_compute. reflexivity.
Defined.

(** ** Trimming *)

Lemma chars_substr (str : string) (pos n : nat) :
  chars (substr str pos n) = take n (drop pos (chars str)).
Proof.
  unfold substr. revert pos n.
  induction str as [|c str IH]; intros pos n.
  - by destruct pos, n.
  - destruct pos as [|pos]; simpl.
    + destruct n as [|n]; simpl; [done|]. f_equal. apply (IH 0%nat).
    + apply IH.
Qed.

Lemma chars_inj (s t : string) : chars s = chars t → s = t.
Proof.
  intros Heq. rewrite <- (string_of_list_ascii_of_string s),
                      <- (string_of_list_ascii_of_string t).
  by rewrite Heq.
Qed.

Lemma find_first_not_blank_spec (s : list ascii) (i : nat) :
  match find_first_not_blank s i with
  | Some j =>
      ∃ l c rest, s = l ++ c :: rest ∧ blanks l ∧ is_blank c = false ∧
                  j = (i + length l)%nat
  | None => blanks s
  end.
Proof.
  revert i. induction s as [|c s IH]; intros i; simpl.
  { constructor. }
  destruct (is_blank c) eqn:Hc.
  - specialize (IH (S i)). destruct (find_first_not_blank s (S i)) as [j|].
    + destruct IH as (l & c' & rest & -> & Hl & Hc' & ->).
      exists (c :: l), c', rest. split_and!; [done|by constructor|done|].
      simpl. lia.
    + by constructor.
  - exists [], c, s. split_and!; [done|constructor|done|simpl; lia].
Qed.

Lemma find_last_not_blank_spec (s : list ascii) (i : nat) :
  match find_last_not_blank s i with
  | Some j =>
      ∃ l c r, s = l ++ c :: r ∧ blanks r ∧ is_blank c = false ∧
               j = (i + length l)%nat
  | None => blanks s
  end.
Proof.
  revert i. induction s as [|c s IH]; intros i; simpl.
  { constructor. }
  specialize (IH (S i)). destruct (find_last_not_blank s (S i)) as [j|].
  - destruct IH as (l & c' & r & -> & Hr & Hc' & ->).
    exists (c :: l), c', r. split_and!; [done..|simpl; lia].
  - destruct (is_blank c) eqn:Hc.
    + by constructor.
    + exists [], c, s. split_and!; [done..|simpl; lia].
Qed.

Lemma blanks_no_first (l : list ascii) (c : ascii) (rest : list ascii)
    (l' : list ascii) (c' : ascii) (rest' : list ascii) :
  l ++ c :: rest = l' ++ c' :: rest' →
  blanks l → is_blank c = false → blanks l' → is_blank c' = false →
  l = l'.
Proof.
  revert l'. induction l as [|x l IH]; intros [|x' l'] Heq Hl Hc Hl' Hc';
    simpl in *.
  - done.
  - injection Heq as -> _. apply Forall_cons in Hl' as [Hx _]. congruence.
  - injection Heq as <- _. apply Forall_cons in Hl as [Hx _]. congruence.
  - injection Heq as -> Heq. f_equal.
    apply Forall_cons in Hl as [_ Hl]. apply Forall_cons in Hl' as [_ Hl'].
    by eapply IH.
Qed.

Lemma find_first_not_blank_blanks (s : list ascii) (i : nat) :
  blanks s → find_first_not_blank s i = None.
Proof.
  revert i. induction s as [|c s IH]; intros i Hs; simpl; [done|].
  apply Forall_cons in Hs as [-> Hs]. by apply IH.
Qed.

Lemma find_last_not_blank_blanks (s : list ascii) (i : nat) :
  blanks s → find_last_not_blank s i = None.
Proof.
  revert i. induction s as [|c s IH]; intros i Hs; simpl; [done|].
  apply Forall_cons in Hs as [-> Hs]. by rewrite IH.
Qed.

Lemma find_first_not_blank_padded (l : list ascii) (c : ascii)
    (rest : list ascii) (i : nat) :
  blanks l → is_blank c = false →
  find_first_not_blank (l ++ c :: rest) i = Some (i + length l)%nat.
Proof.
  revert i. induction l as [|x l IH]; intros i Hl Hc; simpl.
  - rewrite Hc. f_equal. lia.
  - apply Forall_cons in Hl as [-> Hl]. rewrite IH by done. f_equal. lia.
Qed.

Lemma find_last_not_blank_padded (l : list ascii) (c : ascii)
    (r : list ascii) (i : nat) :
  blanks r → is_blank c = false →
  find_last_not_blank (l ++ c :: r) i = Some (i + length l)%nat.
Proof.
  revert i. induction l as [|x l IH]; intros i Hr Hc; simpl.
  - rewrite find_last_not_blank_blanks by done. rewrite Hc. f_equal. lia.
  - rewrite IH by done. f_equal. lia.
Qed.

Lemma trimmed_ends (core : list ascii) :
  trimmed core → core ≠ [] →
  ∃ c rest init lst,
    core = c :: rest ∧ core = init ++ [lst] ∧
    is_blank c = false ∧ is_blank lst = false.
Proof.
  destruct core as [|c rest]; [done|]. intros [Hc Hlast] _.
  exists c, rest, (removelast (c :: rest)), (List.last (c :: rest) c).
  split_and!; [done| |done|done].
  by apply app_removelast_last.
Qed.

(** The characters [trim] returns for a string known as blanks, a core
    and blanks. *)
Lemma chars_trim_padded (str : string) (l core r : list ascii) :
  chars str = l ++ core ++ r →
  blanks l → blanks r → trimmed core →
  chars (trim str) = core.
Proof.
  intros Hstr Hl Hr Hcore. unfold trim. rewrite Hstr.
  destruct core as [|c0 core0] eqn:Hc0.
  { simpl. rewrite find_first_not_blank_blanks; [done|].
    by apply Forall_app. }
  rewrite <- Hc0 in *.
  destruct (trimmed_ends core Hcore) as (c & rest & init & lst & Hhead & Hlast & Hc & Hlst).
  { by rewrite Hc0. }
  assert (l ++ core ++ r = l ++ c :: (rest ++ r)) as Hfirst.
  { by rewrite Hhead. }
  assert (l ++ core ++ r = (l ++ init) ++ lst :: r) as Hend.
  { rewrite Hlast. by rewrite <- !app_assoc. }
  rewrite Hfirst at 1.
  rewrite find_first_not_blank_padded by done.
  rewrite Hend. rewrite find_last_not_blank_padded by done.
  rewrite chars_substr, Hstr. simpl.
  rewrite drop_app_length.
  replace (length (l ++ init) - length l + 1)%nat with (length core).
  - by rewrite take_app_length.
  - rewrite Hlast, !length_app. simpl. lia.
Qed.

(** Every string is a run of blanks, a core with no blank at either end
    and a run of blanks. *)
Lemma chars_decompose (s : list ascii) :
  ∃ l core r : list ascii,
    s = l ++ core ++ r ∧ blanks l ∧ blanks r ∧ trimmed core.
Proof.
  pose proof (find_first_not_blank_spec s 0) as Hfirst.
  pose proof (find_last_not_blank_spec s 0) as Hlast.
  destruct (find_first_not_blank s 0) as [i|]; last first.
  { exists s, [], []. rewrite app_nil_r.
    split_and!; [done|done|constructor|done]. }
  destruct Hfirst as (l & c & rest & -> & Hl & Hc & _).
  destruct (find_last_not_blank (l ++ c :: rest) 0) as [e|]; last first.
  { apply Forall_app in Hlast as [_ Hlast].
    apply Forall_cons in Hlast as [Hx _]. congruence. }
  destruct Hlast as (l2 & c2 & r & Hstr2 & Hr & Hc2 & _).
  apply app_eq_app in Hstr2 as [k [[Hk1 Hk2]|[Hk1 Hk2]]].
  - destruct k as [|x k]; simpl in Hk2.
    + injection Hk2 as -> ->. exists l, [c], rest. by split_and!.
    + injection Hk2 as <- _. rewrite Hk1 in Hl.
      apply Forall_app in Hl as [_ Hl].
      apply Forall_cons in Hl as [Hx _]. congruence.
  - destruct k as [|x k]; simpl in Hk2.
    + injection Hk2 as -> ->. exists l, [c2], r. by split_and!.
    + injection Hk2 as <- ->.
      exists l, (c :: k ++ [c2]), r. split_and!; try done.
      * simpl. by rewrite <- !app_assoc.
      * split; [done|].
        change (c :: k ++ [c2]) with ((c :: k) ++ [c2]).
        by rewrite last_last.
Qed.

(** What [trim] returns: the string is a run of blanks, a core with no
    blank at either end and a run of blanks, and [trim] returns the
    core. *)
Theorem trim_spec (str : string) :
  ∃ l core r : list ascii,
    chars str = l ++ core ++ r ∧
    blanks l ∧ blanks r ∧ trimmed core ∧
    chars (trim str) = core.
Proof.
  destruct (chars_decompose (chars str)) as (l & core & r & Hstr & Hl & Hr & Hcore).
  exists l, core, r. split_and!; try done.
  by eapply chars_trim_padded.
Qed.

(** [trim] applied to blanks, a core that neither starts nor ends with a
    blank, and blanks returns the core; a string of blanks gives the
    empty string. *)
Theorem trim_padded (l core r : string) :
  blanks (chars l) → blanks (chars r) → trimmed (chars core) →
  trim (l +:+ core +:+ r) = core.
Proof.
  intros Hl Hr Hcore. apply chars_inj.
  apply (chars_trim_padded _ (chars l) (chars core) (chars r)); try done.
  assert (∀ a b, chars (a +:+ b) = chars a ++ chars b) as Happ.
  { intros a b. induction a as [|x a IH]; simpl; [done|by rewrite IH]. }
  by rewrite !Happ.
Qed.

Lemma trim_padded_witness : trim (" " +:+ "06 42 56" +:+ "  ") = "06 42 56".
Proof.
  apply (trim_padded " " "06 42 56" "  ").
  - repeat constructor.
  - repeat constructor.
  - split; reflexivity.
Defined.

(** Trimming twice is trimming once. *)
Theorem trim_idempotent (str : string) : trim (trim str) = trim str.
Proof.
  destruct (chars_decompose (chars str)) as (l & core & r & Hstr & Hl & Hr & Hcore).
  pose proof (chars_trim_padded _ _ _ _ Hstr Hl Hr Hcore) as Htrim.
  apply chars_inj. rewrite Htrim.
  apply (chars_trim_padded _ [] core []); [|constructor|constructor|done].
  by rewrite Htrim, app_nil_r.
Qed.

Example split_csv : split 10 "a,b,,c" "," = Some ["a"; "b"; ""; "c"].
Proof. vm_compute. reflexivity. Qed.
Example tokenize_csv : tokenize 10 ",a,b,,c," "," = Some ["a"; "b"; "c"].
Proof. vm_compute. reflexivity. Qed.
Example tokenize_two : tokenize 10 "a,b;c,;d" ",;" = Some ["a,b;c"; "d"].
Proof. vm_compute. reflexivity. Qed.
Example split_two : split 10 "a, b, c" ", " = Some ["a"; "b"; "c"].
Proof. vm_compute. reflexivity. Qed.

(** ** Splitting *)

Lemma chars_app (a b : string) : chars (a +:+ b) = chars a ++ chars b.
Proof. induction a as [|x a IH]; simpl; [done|by rewrite IH]. Qed.

Lemma starts_with_app (delim rest : list ascii) :
  starts_with delim (delim ++ rest) = true.
Proof.
  induction delim as [|d delim IH]; simpl; [done|].
  by rewrite bool_decide_eq_true_2.
Qed.

Lemma starts_with_prefix (delim s : list ascii) :
  starts_with delim s = true → ∃ rest, s = delim ++ rest.
Proof.
  revert s. induction delim as [|d delim IH]; intros s Hs.
  { by exists s. }
  destruct s as [|c s]; simpl in Hs; [done|].
  apply andb_true_iff in Hs as [Hd Hs]. apply bool_decide_eq_true in Hd as ->.
  destruct (IH s Hs) as [rest ->]. by exists rest.
Qed.

(** Where [find_in] finds the delimiter it stands, and nowhere before. *)
Lemma find_in_Some (s delim : list ascii) (i j : nat) :
  find_in s delim i = Some j →
  ∃ pre post,
    s = pre ++ delim ++ post ∧ j = (i + length pre)%nat ∧
    ∀ m, (m < length pre)%nat → starts_with delim (drop m s) = false.
Proof.
  revert i. induction s as [|c s IH]; intros i; simpl.
  - destruct (starts_with delim []) eqn:Hd; [|done].
    intros [= <-]. apply starts_with_prefix in Hd as [rest Hd].
    exists [], rest. split_and!; [done|simpl; lia|simpl; lia].
  - destruct (starts_with delim (c :: s)) eqn:Hd.
    + intros [= <-]. apply starts_with_prefix in Hd as [rest Hd].
      exists [], rest. split_and!; [done|simpl; lia|simpl; lia].
    + intros Hfind. destruct (IH _ Hfind) as (pre & post & -> & -> & Hmin).
      exists (c :: pre), post. split_and!; [done|simpl; lia|].
      intros [|m] Hm; simpl; [done|]. apply Hmin. simpl in Hm. lia.
Qed.

Lemma find_in_None (s delim : list ascii) (i : nat) :
  find_in s delim i = None →
  ∀ m, starts_with delim (drop m s) = false.
Proof.
  revert i. induction s as [|c s IH]; intros i; simpl.
  - destruct (starts_with delim []) eqn:Hd; [done|].
    intros _ m. by rewrite drop_nil.
  - destruct (starts_with delim (c :: s)) eqn:Hd; [done|].
    intros Hfind [|m]; simpl; [done|]. by eapply IH.
Qed.

Lemma find_in_nil (s : list ascii) (i : nat) : find_in s [] i = Some i.
Proof. by destruct s. Qed.

Lemma chars_join_cons (delim token : string) (rest : list string) :
  rest ≠ [] →
  chars (join delim (token :: rest))
  = chars token ++ chars delim ++ chars (join delim rest).
Proof.
  destruct rest as [|t rest]; [done|]. intros _.
  cbn [join]. by rewrite !chars_app.
Qed.

Lemma starts_with_app_l (delim s t : list ascii) :
  starts_with delim s = true → starts_with delim (s ++ t) = true.
Proof.
  intros [rest ->]%starts_with_prefix. rewrite <- app_assoc.
  apply starts_with_app.
Qed.

Lemma find_in_None_intro (s delim : list ascii) (i : nat) :
  (∀ m, starts_with delim (drop m s) = false) → find_in s delim i = None.
Proof.
  revert i. induction s as [|c s IH]; intros i Hnone;
    pose proof (Hnone 0%nat) as H0; simpl in H0 |- *; rewrite H0.
  - done.
  - apply IH. intros m. apply (Hnone (S m)).
Qed.

(** A stretch before the first place where the delimiter stands does not
    hold the delimiter. *)
Lemma find_before (pre delim post : list ascii) :
  delim ≠ [] →
  (∀ m, (m < length pre)%nat →
        starts_with delim (drop m (pre ++ delim ++ post)) = false) →
  find_in pre delim 0 = None.
Proof.
  intros Hdelim Hmin. apply find_in_None_intro. intros m.
  destruct (decide (m < length pre)%nat) as [Hm|Hm].
  - destruct (starts_with delim (drop m pre)) eqn:Hd; [|done].
    apply (starts_with_app_l _ _ (delim ++ post)) in Hd.
    rewrite <- drop_app_le in Hd by lia. by rewrite Hmin in Hd.
  - rewrite drop_ge by lia. by destruct delim.
Qed.

Lemma find_chars (token delim : string) :
  find token delim 0 = find_in (chars token) (chars delim) 0.
Proof. unfold find. rewrite decide_True by lia. by rewrite drop_0. Qed.

(** With a delimiter that is not empty the loop ends within as many
    rounds as characters are left, and the tokens it adds, joined, are
    the rest of the string. *)
Lemma split_loop_spec (str delim : string) (fuel start : nat)
    (tokens : list string) :
  delim ≠ "" →
  (start ≤ String.length str)%nat →
  (String.length str - start < fuel)%nat →
  ∃ rest,
    split_loop fuel str delim start (find str delim start) tokens
      = Some (tokens ++ rest) ∧
    rest ≠ [] ∧
    chars (join delim rest) = drop start (chars str) ∧
    Forall (λ token, find token delim 0 = None) rest.
Proof.
  intros Hdelim. revert start tokens.
  induction fuel as [|fuel IH]; intros start tokens Hstart Hfuel; [lia|].
  unfold find at 1. rewrite decide_True by done.
  destruct (find_in (drop start (chars str)) (chars delim) start)
    as [e|] eqn:Hfind.
  - apply find_in_Some in Hfind as (pre & post & Hdrop & -> & Hmin).
    cbn [split_loop].
    assert (0 < String.length delim)%nat as Hlen.
    { destruct delim; [done|simpl; lia]. }
    assert (length (chars str) = start + length pre + String.length delim
                                 + length post)%nat as Htotal.
    { rewrite <- (take_drop start (chars str)), Hdrop, !length_app,
        length_take, !length_chars. lia. }
    rewrite length_chars in Htotal.
    assert (drop (start + length pre + String.length delim) (chars str)
            = post) as Hpost.
    { rewrite <- Nat.add_assoc, <- drop_drop, Hdrop.
      rewrite <- length_chars, <- length_app, app_assoc.
      by rewrite drop_app_length. }
    destruct (IH (start + length pre + String.length delim)%nat
                 (tokens ++ [substr str start (start + length pre - start)]))
      as (rest & Hrun & Hne & Hjoin & Hclean); [lia..|].
    assert (chars (substr str start (start + length pre - start)) = pre)
      as Htoken.
    { rewrite chars_substr, Hdrop.
      replace (start + length pre - start)%nat with (length pre) by lia.
      by rewrite take_app_length. }
    exists (substr str start (start + length pre - start) :: rest).
    split_and!.
    + rewrite Hrun. by rewrite <- app_assoc.
    + done.
    + rewrite chars_join_cons by done.
      by rewrite Htoken, Hjoin, Hpost, Hdrop.
    + constructor; [|done]. rewrite find_chars, Htoken.
      apply (find_before pre (chars delim) post).
      * by destruct delim.
      * by rewrite <- Hdrop.
  - assert (chars (substr str start (String.length str))
            = drop start (chars str)) as Htoken.
    { rewrite chars_substr, take_ge; [done|].
      rewrite length_drop, length_chars. lia. }
    exists [substr str start (String.length str)]. split_and!; [done..| |].
    + done.
    + constructor; [|done]. rewrite find_chars, Htoken.
      apply find_in_None_intro. by eapply find_in_None.
Qed.

Lemma split_loop_mono (str delim : string) (fuel start : nat)
    (end_ : option nat) (tokens result : list string) :
  split_loop fuel str delim start end_ tokens = Some result →
  split_loop (S fuel) str delim start end_ tokens = Some result.
Proof.
  revert start end_ tokens.
  induction fuel as [|fuel IH]; intros start end_ tokens.
  - destruct end_; [done|]. by intros [= <-].
  - destruct end_ as [e|]; [|by intros [= <-]].
    cbn [split_loop]. intros Hrun. by apply IH in Hrun.
Qed.

(** [split] with a delimiter that is not empty ends, after at most as
    many rounds as the string has characters, with at least one token,
    and the tokens joined by the delimiter are the string. *)
Theorem split_join (str delim : string) :
  delim ≠ "" →
  ∃ tokens,
    (∀ fuel, (String.length str < fuel)%nat →
       split fuel str delim = Some tokens) ∧
    tokens ≠ [] ∧
    join delim tokens = str.
Proof.
  intros Hdelim.
  destruct (split_loop_spec str delim (S (String.length str)) 0 [] Hdelim)
    as (tokens & Hrun & Hne & Hjoin & _); [lia..|].
  exists tokens. split_and!; [|done|by apply chars_inj].
  intros fuel Hfuel. unfold split.
  induction Hfuel as [|fuel Hfuel IH]; [done|].
  by apply split_loop_mono.
Qed.

Lemma split_join_witness :
  ∃ tokens,
    (∀ fuel, (String.length "a,b,,c" < fuel)%nat →
       split fuel "a,b,,c" "," = Some tokens) ∧
    tokens ≠ [] ∧
    join "," tokens = "a,b,,c".
Proof. apply (split_join "a,b,,c" ","). discriminate. Defined.

(** [split] with the empty delimiter does not end: the search finds the
    empty delimiter where it starts, and the loop stays there.  No number
    of rounds gives a result. *)
Theorem split_empty_delimiter (str : string) (fuel : nat) :
  split fuel str "" = None.
Proof.
  unfold split.
  assert (∀ start tokens, (start ≤ String.length str)%nat →
            split_loop fuel str "" start (find str "" start) tokens = None)
    as Hloop; [|by apply Hloop; lia].
  induction fuel as [|fuel IH]; intros start tokens Hstart;
    unfold find; rewrite decide_True by done;
    cbn [chars list_ascii_of_string]; rewrite find_in_nil; cbn [split_loop].
  - done.
  - cbn [String.length]. rewrite Nat.add_0_r. by apply IH.
Qed.

(** No token [split] returns holds the delimiter. *)
Theorem split_tokens_clean (str delim : string) (fuel : nat)
    (tokens : list string) :
  delim ≠ "" →
  split fuel str delim = Some tokens →
  Forall (λ token, find token delim 0 = None) tokens.
Proof.
  intros Hdelim Hrun.
  destruct (split_loop_spec str delim (S (String.length str)) 0 [] Hdelim)
    as (rest & Hrest & _ & _ & Hclean); [lia..|].
  assert (∀ n, split_loop (n + fuel) str delim 0 (find str delim 0) []
               = Some tokens) as Hup.
  { induction n as [|n IH]; [done|]. by apply split_loop_mono. }
  assert (∀ n, split_loop (n + S (String.length str)) str delim 0
                 (find str delim 0) [] = Some rest) as Hup'.
  { induction n as [|n IH]; [done|]. by apply split_loop_mono. }
  specialize (Hup (S (String.length str))). specialize (Hup' fuel).
  rewrite Nat.add_comm in Hup'. rewrite Hup in Hup'. by injection Hup' as ->.
Qed.

Lemma split_tokens_clean_witness :
  Forall (λ token, find token ", " 0 = None) ["a"; "b"; "c"].
Proof.
  apply (split_tokens_clean "a, b, c" ", " 10 ["a"; "b"; "c"]).
  - discriminate.
  - vm_compute. reflexivity.
Defined.

(** ** Tokenizing *)

Lemma find_not_in_Some (s set : list ascii) (i j : nat) :
  find_not_in s set i = Some j →
  ∃ pre c rest,
    s = pre ++ c :: rest ∧ Forall (λ x, x ∈ set) pre ∧ (c ∉ set) ∧
    j = (i + length pre)%nat.
Proof.
  revert i. induction s as [|x s IH]; intros i; simpl; [done|].
  case_bool_decide as Hx.
  - intros Hfind. destruct (IH _ Hfind) as (pre & c & rest & -> & Hpre & Hc & ->).
    exists (x :: pre), c, rest. split_and!; [done|by constructor|done|].
    simpl. lia.
  - intros [= <-]. exists [], x, s. split_and!; [done|constructor|done|].
    simpl. lia.
Qed.

Lemma find_not_in_None (s set : list ascii) (i : nat) :
  find_not_in s set i = None → Forall (λ x, x ∈ set) s.
Proof.
  revert i. induction s as [|x s IH]; intros i; simpl; [constructor|].
  case_bool_decide as Hx; [|done]. intros Hfind. constructor; [done|].
  by eapply IH.
Qed.

Lemma tokenize_loop_end (fuel : nat) (str delim : string)
    (tokens : list string) :
  tokenize_loop fuel str delim None tokens = Some tokens.
Proof. by destruct fuel. Qed.

Lemma tokenize_loop_mono (str delim : string) (fuel : nat)
    (end_ : option nat) (tokens result : list string) :
  tokenize_loop fuel str delim end_ tokens = Some result →
  tokenize_loop (S fuel) str delim end_ tokens = Some result.
Proof.
  revert end_ tokens. induction fuel as [|fuel IH]; intros end_ tokens.
  - cbn [tokenize_loop].
    destruct (find_first_not_of str delim end_); [done|]. by intros [= <-].
  - intros Hrun. cbn [tokenize_loop] in Hrun |- *.
    destruct (find_first_not_of str delim end_) as [start|]; [|done].
    by apply IH in Hrun.
Qed.

(** One round of the loop, for a delimiter that is not empty: the token
    starts at a character outside the delimiter and is not empty, and
    the next search starts after it. *)
Lemma tokenize_round (str delim : string) (e start : nat) :
  delim ≠ "" →
  find_first_not_of str delim (Some e) = Some start →
  ∃ pre c rest,
    drop e (chars str) = pre ++ c :: rest ∧
    Forall (λ x, x ∈ chars delim) pre ∧ (c ∉ chars delim) ∧
    start = (e + length pre)%nat ∧
    match find str delim start with
    | Some e' =>
        ∃ token post,
          c :: rest = token ++ chars delim ++ post ∧ token ≠ [] ∧
          e' = (start + length token)%nat ∧
          chars (substr str start (e' - start)) = token ∧
          find_in token (chars delim) 0 = None
    | None =>
        chars (substr str start (String.length str)) = c :: rest ∧
        find_in (c :: rest) (chars delim) 0 = None
    end.
Proof.
  intros Hdelim Hstart. simpl in Hstart.
  apply find_not_in_Some in Hstart as (pre & c & rest & Hdrop & Hpre & Hc & ->).
  exists pre, c, rest. split_and!; [done..|].
  assert (drop (e + length pre) (chars str) = c :: rest) as Hrest.
  { rewrite <- drop_drop, Hdrop. by rewrite drop_app_length. }
  assert (e + length pre < String.length str)%nat as Hlt.
  { rewrite <- length_chars.
    apply (f_equal length) in Hrest. rewrite length_drop in Hrest.
    simpl in Hrest. lia. }
  unfold find. rewrite decide_True by lia. rewrite Hrest.
  destruct (find_in (c :: rest) (chars delim) (e + length pre)) as [e'|]
    eqn:Hfind.
  - apply find_in_Some in Hfind as (token & post & Hsplit & -> & Hmin).
    exists token, post. split_and!; [done| |done| |].
    + intros ->. simpl in Hsplit.
      destruct delim as [|d delim]; [done|]. simpl in Hsplit.
      injection Hsplit as -> _. apply Hc. by left.
    + rewrite chars_substr, Hrest, Hsplit.
      replace (e + length pre + length token - (e + length pre))%nat
        with (length token) by lia.
      by rewrite take_app_length.
    + apply (find_before token (chars delim) post).
      * by destruct delim.
      * by rewrite <- Hsplit.
  - split.
    + rewrite chars_substr, Hrest, take_ge; [done|].
      apply (f_equal length) in Hrest. rewrite length_drop in Hrest.
      rewrite <- length_chars. lia.
    + apply find_in_None_intro. by eapply find_in_None.
Qed.

(** With a delimiter that is not empty the loop ends within as many
    rounds as characters are left, and no token it adds is empty. *)
Lemma tokenize_loop_spec (str delim : string) (fuel e : nat)
    (tokens : list string) :
  delim ≠ "" →
  (String.length str - e < fuel)%nat →
  ∃ rest,
    tokenize_loop fuel str delim (Some e) tokens = Some (tokens ++ rest) ∧
    Forall (λ token, token ≠ "") rest.
Proof.
  intros Hdelim. revert e tokens.
  induction fuel as [|fuel IH]; intros e tokens Hfuel; [lia|].
  cbn [tokenize_loop].
  destruct (find_first_not_of str delim (Some e)) as [start|] eqn:Hstart;
    last first.
  { exists []. by rewrite app_nil_r. }
  destruct (tokenize_round str delim e start Hdelim Hstart)
    as (pre & c & rest & Hdrop & _ & _ & -> & Hfind).
  assert (e + length pre < String.length str)%nat as Hlt.
  { rewrite <- length_chars.
    apply (f_equal length) in Hdrop.
    rewrite length_drop, length_app in Hdrop. simpl in Hdrop. lia. }
  destruct (find str delim (e + length pre)) as [e'|].
  - destruct Hfind as (token & post & _ & Hne & -> & Htoken & _).
    destruct (IH (e + length pre + length token)%nat
                (tokens ++ [substr str (e + length pre)
                              (e + length pre + length token - (e + length pre))]))
      as (more & Hrun & Hmore).
    { destruct token; [done|]. simpl. lia. }
    eexists (_ :: more). split.
    + rewrite Hrun. by rewrite <- app_assoc.
    + constructor; [|done]. intros Hempty. rewrite Hempty in Htoken.
      by destruct token.
  - destruct Hfind as [Htoken _]. rewrite tokenize_loop_end.
    eexists [_]. split; [done|]. constructor; [|done].
    intros Hempty. by rewrite Hempty in Htoken.
Qed.

(** [tokenize] with a delimiter that is not empty ends, after at most as
    many rounds as the string has characters, and none of its tokens is
    empty. *)
Theorem tokenize_tokens_not_empty (str delim : string) :
  delim ≠ "" →
  ∃ tokens,
    (∀ fuel, (String.length str < fuel)%nat →
       tokenize fuel str delim = Some tokens) ∧
    Forall (λ token, token ≠ "") tokens.
Proof.
  intros Hdelim.
  destruct (tokenize_loop_spec str delim (S (String.length str)) 0 [] Hdelim)
    as (tokens & Hrun & Hne); [lia|].
  exists tokens. split; [|done].
  intros fuel Hfuel. unfold tokenize.
  induction Hfuel as [|fuel Hfuel IH]; [done|].
  by apply tokenize_loop_mono.
Qed.

Lemma tokenize_tokens_not_empty_witness :
  ∃ tokens,
    (∀ fuel, (String.length ",a,b,,c," < fuel)%nat →
       tokenize fuel ",a,b,,c," "," = Some tokens) ∧
    Forall (λ token, token ≠ "") tokens.
Proof. apply (tokenize_tokens_not_empty ",a,b,,c," ","). discriminate. Defined.

(** [tokenize] with the empty delimiter, on a string that is not empty,
    does not end: every round adds an empty token and stays where it
    is. *)
Theorem tokenize_empty_delimiter (str : string) (fuel : nat) :
  str ≠ "" → tokenize fuel str "" = None.
Proof.
  intros Hstr. unfold tokenize.
  assert (∀ tokens, tokenize_loop fuel str "" (Some 0%nat) tokens = None)
    as Hloop; [|done].
  destruct str as [|c str]; [done|].
  induction fuel as [|fuel IH]; intros tokens; [done|].
  cbn [tokenize_loop find_first_not_of]. simpl. apply IH.
Qed.

Lemma tokenize_empty_delimiter_witness : tokenize 100 "abc" "" = None.
Proof. apply (tokenize_empty_delimiter "abc" 100). discriminate. Defined.

(** [tokenize] cuts where the whole delimiter string stands, not at its
    single characters: a string that starts outside the delimiter's
    characters and does not hold the delimiter string comes back as one
    token, whatever delimiter characters it holds. *)
Theorem tokenize_whole (str delim : string) (fuel : nat) :
  find_first_not_of str delim (Some 0%nat) = Some 0%nat →
  find str delim 0 = None →
  tokenize (S fuel) str delim = Some [str].
Proof.
  intros Hstart Hfind. unfold tokenize. cbn [tokenize_loop].
  rewrite Hstart, Hfind, tokenize_loop_end. simpl. do 2 f_equal.
  apply chars_inj. rewrite chars_substr, drop_0, take_ge; [done|].
  by rewrite length_chars.
Qed.

Lemma tokenize_whole_witness : tokenize 1 "a,b;c" ",;" = Some ["a,b;c"].
Proof.
  apply (tokenize_whole "a,b;c" ",;" 0).
  - reflexivity.
  - reflexivity.
Defined.

Lemma find_in_char_None (s : list ascii) (d : ascii) (i : nat) :
  find_in s [d] i = None → d ∉ s.
Proof.
  revert i. induction s as [|c s IH]; intros i; simpl.
  - intros _ Hin. by apply elem_of_nil in Hin.
  - case_bool_decide as Hd; simpl; [done|].
    intros Hfind [->|Hin]%elem_of_cons; [done|]. by eapply IH.
Qed.

Lemma filter_without (s : list ascii) (d : ascii) :
  d ∉ s → filter (λ c, c ≠ d) s = s.
Proof.
  induction s as [|c s IH]; intros Hd; [done|].
  apply not_elem_of_cons in Hd as [Hne Hd].
  rewrite filter_cons_True by done. by rewrite IH.
Qed.

Lemma filter_only (s : list ascii) (d : ascii) :
  Forall (λ x, x ∈ [d]) s → filter (λ c, c ≠ d) s = [].
Proof.
  induction s as [|c s IH]; intros Hs; [done|].
  apply Forall_cons in Hs as [Hc Hs]. apply list_elem_of_singleton in Hc as ->.
  rewrite filter_cons_False by (intros Hne; by apply Hne). by apply IH.
Qed.

Lemma tokenize_loop_more (str delim : string) (n fuel : nat)
    (end_ : option nat) (tokens result : list string) :
  tokenize_loop fuel str delim end_ tokens = Some result →
  tokenize_loop (n + fuel) str delim end_ tokens = Some result.
Proof.
  intros Hrun. induction n as [|n IH]; [done|]. by apply tokenize_loop_mono.
Qed.

(** With a delimiter of one character, the tokens the loop adds hold no
    delimiter and are, put together, the rest of the string without its
    delimiters. *)
Lemma tokenize_loop_char (str : string) (d : ascii) (fuel e : nat)
    (tokens : list string) :
  (String.length str - e < fuel)%nat →
  ∃ rest,
    tokenize_loop fuel str (String d "") (Some e) tokens
      = Some (tokens ++ rest) ∧
    concat (chars <$> rest) = filter (λ c, c ≠ d) (drop e (chars str)) ∧
    Forall (λ token, d ∉ chars token) rest.
Proof.
  revert e tokens.
  induction fuel as [|fuel IH]; intros e tokens Hfuel; [lia|].
  cbn [tokenize_loop].
  destruct (find_first_not_of str (String d "") (Some e)) as [start|]
    eqn:Hstart; last first.
  { exists []. rewrite app_nil_r. split_and!; [done| |done].
    simpl in Hstart. apply find_not_in_None in Hstart.
    by rewrite filter_only. }
  destruct (tokenize_round str (String d "") e start) as
    (pre & c & rest & Hdrop & Hpre & _ & -> & Hfind); [done..|].
  assert (e + length pre < String.length str)%nat as Hlt.
  { rewrite <- length_chars.
    apply (f_equal length) in Hdrop.
    rewrite length_drop, length_app in Hdrop. simpl in Hdrop. lia. }
  rewrite Hdrop, filter_app, filter_only, app_nil_l by done.
  cbn [list_ascii_of_string] in Hfind.
  destruct (find str (String d "") (e + length pre)) as [e'|].
  - destruct Hfind as (token & post & Hsplit & Hne & -> & Htoken & Hclean).
    apply find_in_char_None in Hclean.
    destruct (IH (e + length pre + length token)%nat
                (tokens ++ [substr str (e + length pre)
                              (e + length pre + length token - (e + length pre))]))
      as (more & Hrun & Hmore & Hall).
    { destruct token; [done|]. simpl. lia. }
    eexists (_ :: more). split_and!.
    + rewrite Hrun. by rewrite <- app_assoc.
    + rewrite fmap_cons, concat_cons, Htoken, Hmore, Hsplit.
      rewrite filter_app, (filter_without token) by done. f_equal.
      assert (drop (e + length pre + length token) (chars str)
              = d :: post) as ->.
      { rewrite <- !drop_drop, Hdrop, drop_app_length, Hsplit.
        by rewrite drop_app_length. }
      done.
    + constructor; [|done]. by rewrite Htoken.
  - destruct Hfind as [Htoken Hclean]. apply find_in_char_None in Hclean.
    rewrite tokenize_loop_end. eexists [_]. split_and!; [done|..].
    + simpl. rewrite app_nil_r, Htoken. by rewrite filter_without.
    + constructor; [|done]. by rewrite Htoken.
Qed.

(** With a delimiter of one character [tokenize] returns the stretches
    between delimiters: no token holds the delimiter, and the tokens put
    together are the string with its delimiters taken out. *)
Theorem tokenize_char (str : string) (d : ascii) (fuel : nat)
    (tokens : list string) :
  tokenize fuel str (String d "") = Some tokens →
  concat (chars <$> tokens) = filter (λ c, c ≠ d) (chars str) ∧
  Forall (λ token, d ∉ chars token) tokens.
Proof.
  intros Hrun.
  destruct (tokenize_loop_char str d (S (String.length str)) 0 [])
    as (rest & Hrest & Hconcat & Hall); [lia|].
  apply (tokenize_loop_more _ _ (S (String.length str))) in Hrun.
  apply (tokenize_loop_more _ _ fuel) in Hrest.
  rewrite Nat.add_comm, Hrun in Hrest. injection Hrest as ->.
  by rewrite drop_0 in Hconcat.
Qed.

Lemma tokenize_char_witness :
  concat (chars <$> ["a"; "b"; "c"])
    = filter (λ c, c ≠ ","%char) (chars ",a,b,,c,") ∧
  Forall (λ token, ","%char ∉ chars token) ["a"; "b"; "c"].
Proof.
  apply (tokenize_char ",a,b,,c," ","%char 10 ["a"; "b"; "c"]).
  vm_compute. reflexivity.
Defined.

(** ** Type codes *)

Lemma stringTypes_code (t : SSObjectType) :
  _stringTypes !! (typeToCode _typeStrings t).1 = Some t.
Proof. by destruct t. Qed.

(** Every object type has a code, and the code gives the type back;
    neither lookup changes its table. *)
Theorem typeToCode_codeToType (zero t : SSObjectType) :
  (typeToCode _typeStrings t).2 = _typeStrings ∧
  codeToType zero _stringTypes (typeToCode _typeStrings t).1
    = (t, _stringTypes).
Proof. by destruct t. Qed.

Lemma subscript_subseteq `{Countable K} {V : Type} (dflt : V) (k : K)
    (init map : gmap K V) :
  init ⊆ map → init ⊆ (subscript dflt k map).2.
Proof.
  intros Hsub. unfold subscript.
  destruct (map !! k) as [v|] eqn:Hk; simpl; [done|].
  etrans; [done|]. by apply insert_subseteq.
Qed.

(** Looking up a code, known or not, keeps the entries the table started
    with: whatever codes were looked up before, the code of every type
    gives the type.  A code the table does not hold gives the type of
    value 0 and is entered under it. *)
Theorem codeToType_keeps_codes (zero : SSObjectType)
    (stringTypes : gmap string SSObjectType) (code : string) :
  _stringTypes ⊆ stringTypes →
  _stringTypes ⊆ (codeToType zero stringTypes code).2 ∧
  (∀ t, (codeToType zero (codeToType zero stringTypes code).2
           (typeToCode _typeStrings t).1).1 = t) ∧
  (stringTypes !! code = None →
   (codeToType zero stringTypes code).1 = zero ∧
   (codeToType zero stringTypes code).2 !! code = Some zero).
Proof.
  intros Hsub.
  pose proof (subscript_subseteq zero code _ _ Hsub) as Hsub'.
  split_and!; [done|..].
  - intros t. unfold codeToType at 1. unfold subscript at 1.
    pose proof (stringTypes_code t) as Ht.
    eapply lookup_weaken in Ht; [|exact Hsub'].
    unfold codeToType. by rewrite Ht.
  - intros Hnone. unfold codeToType, subscript. rewrite Hnone. simpl.
    by rewrite lookup_insert_eq.
Qed.

Lemma codeToType_keeps_codes_witness :
  _stringTypes ⊆ (codeToType kTypeNonexistent _stringTypes "XX").2 ∧
  (∀ t, (codeToType kTypeNonexistent
           (codeToType kTypeNonexistent _stringTypes "XX").2
           (typeToCode _typeStrings t).1).1 = t) ∧
  (_stringTypes !! "XX" = None →
   (codeToType kTypeNonexistent _stringTypes "XX").1 = kTypeNonexistent ∧
   (codeToType kTypeNonexistent _stringTypes "XX").2 !! "XX"
     = Some kTypeNonexistent).
Proof. apply (codeToType_keeps_codes kTypeNonexistent _stringTypes "XX"). done. Defined.

(** ** The cross-match step *)

(** The cross-match step on a matched entry, as one update of the
    entry. *)
Lemma crossMatchStar_matched_spec
    (compareSSIdentifiers : SSIdentifier → SSIdentifier → bool)
    (nameMap : SSIdentifierNameMap) (gjACStars : SSObjectVec) (h : heap)
    (map map' : SSObjectMap) (l a : loc) (star acStar : SSStar) :
  star_at h l = Some star →
  SSIdentifierToObject (SSStar_getIdentifier (star_idents star) kCatGJ)
    map gjACStars = Some (ptr a, map') →
  star_at h a = Some acStar →
  let idents :=
    sortIdentifiers compareSSIdentifiers
      (SSAddIdentifier (SSStar_getIdentifier (star_idents acStar) kCatGCVS)
         (SSAddIdentifier (SSStar_getIdentifier (star_idents acStar) kCatFlamsteed)
            (SSAddIdentifier (SSStar_getIdentifier (star_idents acStar) kCatBayer)
               (SSAddIdentifier (SSStar_getIdentifier (star_idents acStar) kCatHIP)
                  (star_idents star))))) in
  let coords :=
    mkSpherical (lon (star_coords acStar)) (lat (star_coords acStar))
      (if is_infinity (rad (star_coords acStar)) then rad (star_coords star)
       else rad (star_coords acStar)) in
  let motion :=
    mkSpherical (lon (star_motion acStar)) (lat (star_motion acStar))
      (if is_infinity (rad (star_motion acStar)) then rad (star_motion star)
       else rad (star_motion acStar)) in
  let names :=
    if decide (0 < length (SSIdentifiersToNames idents nameMap))%nat
    then SSIdentifiersToNames idents nameMap
    else star_names star in
  crossMatchStar compareSSIdentifiers nameMap gjACStars h map (ptr l)
  = Some (<[l := ObjStar (mkStar names idents coords motion (star_Vmag star)
                            (star_Bmag star) (star_spectrum star))]> h,
          map').
Proof.
  intros Hstar Hfound HacStar.
  pose proof (star_at_allocated _ _ _ Hstar) as Hl.
  pose proof (star_at_allocated _ _ _ HacStar) as Ha.
  unfold crossMatchStar. cbn [SSGetStarPtr]. rewrite Hl. simpl.
  rewrite Hstar. simpl. rewrite Hfound. simpl. rewrite Ha. simpl.
  rewrite HacStar. simpl.
  unfold star_store, star_at. rewrite Hl. simpl.
  rewrite lookup_insert_eq. simpl.
  destruct (decide _).
  - rewrite lookup_insert_eq. simpl. by rewrite !insert_insert_eq.
  - rewrite insert_insert_eq. by destruct star.
Qed.

(** The cross-match step on a matched entry: position and proper motion
    come from the reference entry; the distance comes from the reference
    entry unless it is infinite there; magnitudes and spectral type stay
    as they were. *)
Theorem crossMatchStar_precedence
    (compareSSIdentifiers : SSIdentifier → SSIdentifier → bool)
    (nameMap : SSIdentifierNameMap) (gjACStars : SSObjectVec) (h : heap)
    (map map' : SSObjectMap) (l a : loc) (star acStar : SSStar) :
  star_at h l = Some star →
  SSIdentifierToObject (SSStar_getIdentifier (star_idents star) kCatGJ)
    map gjACStars = Some (ptr a, map') →
  star_at h a = Some acStar →
  ∃ (h' : heap) (merged : SSStar),
    crossMatchStar compareSSIdentifiers nameMap gjACStars h map (ptr l)
      = Some (h', map') ∧
    star_at h' l = Some merged ∧
    lon (star_coords merged) = lon (star_coords acStar) ∧
    lat (star_coords merged) = lat (star_coords acStar) ∧
    rad (star_coords merged)
      = (if is_infinity (rad (star_coords acStar))
         then rad (star_coords star) else rad (star_coords acStar)) ∧
    lon (star_motion merged) = lon (star_motion acStar) ∧
    lat (star_motion merged) = lat (star_motion acStar) ∧
    star_Vmag merged = star_Vmag star ∧
    star_Bmag merged = star_Bmag star ∧
    star_spectrum merged = star_spectrum star.
Proof.
  intros Hstar Hfound HacStar.
  rewrite (crossMatchStar_matched_spec _ nameMap _ _ _ _ _ _ _ _
             Hstar Hfound HacStar).
  eexists _, _. split; [done|].
  unfold star_at. rewrite lookup_insert_eq. simpl. by split_and!.
Qed.

Lemma crossMatchStar_precedence_witness :
  ∃ (h' : heap) (merged : SSStar),
    crossMatchStar sampleCompare sampleNames [ptr 0] crossMatchHeap
      {[ mkIdentifier kCatGJ 10011 := 1 ]} (ptr 1)
      = Some (h', {[ mkIdentifier kCatGJ 10011 := 1 ]}) ∧
    star_at h' 1%nat = Some merged ∧
    lon (star_coords merged) = lon (star_coords accurateStar) ∧
    lat (star_coords merged) = lat (star_coords accurateStar) ∧
    rad (star_coords merged)
      = (if is_infinity (rad (star_coords accurateStar))
         then rad (star_coords matchedStar)
         else rad (star_coords accurateStar)) ∧
    lon (star_motion merged) = lon (star_motion accurateStar) ∧
    lat (star_motion merged) = lat (star_motion accurateStar) ∧
    star_Vmag merged = star_Vmag matchedStar ∧
    star_Bmag merged = star_Bmag matchedStar ∧
    star_spectrum merged = star_spectrum matchedStar.
Proof.
  apply (crossMatchStar_precedence sampleCompare sampleNames [ptr 0%nat]
           crossMatchHeap {[ mkIdentifier kCatGJ 10011 := 1 ]}
           {[ mkIdentifier kCatGJ 10011 := 1 ]} 1%nat 0%nat
           matchedStar accurateStar).
  - reflexivity.
  - vm_compute. reflexivity.
  - reflexivity.
Defined.

Lemma SSStar_getIdentifier_elem (idents : list SSIdentifier)
    (cat : SSCatalog) :
  SSStar_getIdentifier idents cat = SSIdentifier_null ∨
  SSStar_getIdentifier idents cat ∈ idents ∧
  ident_catalog (SSStar_getIdentifier idents cat) = cat.
Proof.
  induction idents as [|x idents IH]; simpl; [by left|].
  destruct (decide (ident_catalog x = cat)) as [Hcat|Hcat].
  - right. split; [by left|done].
  - destruct IH as [IH|[IH1 IH2]]; [by left|right].
    split; [by right|done].
Qed.

Lemma SSAddIdentifier_NoDup (ident : SSIdentifier)
    (idents : list SSIdentifier) :
  NoDup idents → NoDup (SSAddIdentifier ident idents).
Proof.
  intros Hnd. unfold SSAddIdentifier.
  destruct (ident_valid ident); simpl; [|done].
  case_bool_decide as Hin; simpl; [done|].
  apply NoDup_app. split_and!; [done| |apply NoDup_singleton].
  intros x Hx ->%list_elem_of_singleton. done.
Qed.

Lemma SSAddIdentifier_keeps (ident x : SSIdentifier)
    (idents : list SSIdentifier) :
  x ∈ idents → x ∈ SSAddIdentifier ident idents.
Proof.
  intros Hx. unfold SSAddIdentifier.
  destruct (_ && _); [|done]. apply elem_of_app. by left.
Qed.

(** The identifiers [SSAddIdentifier] can add from a reference entry
    under a tag: the valid ones that the entry carries under the tag. *)
Lemma SSAddIdentifier_from (acIdents idents : list SSIdentifier)
    (cat : SSCatalog) (x : SSIdentifier) :
  x ∈ SSAddIdentifier (SSStar_getIdentifier acIdents cat) idents →
  x ∈ idents ∨
  x ∈ acIdents ∧ ident_catalog x = cat ∧ ident_valid x = true.
Proof.
  intros [Hx|[-> Hv]]%SSAddIdentifier_elem; [by left|].
  destruct (SSStar_getIdentifier_elem acIdents cat) as [Hnull|[Hin Hcat]].
  - rewrite Hnull in Hv. done.
  - by right.
Qed.

Lemma sortIdentifiers_elem
    (compareSSIdentifiers : SSIdentifier → SSIdentifier → bool)
    (idents : list SSIdentifier) (x : SSIdentifier) :
  x ∈ sortIdentifiers compareSSIdentifiers idents ↔ x ∈ idents.
Proof. unfold sortIdentifiers. by rewrite merge_sort_Permutation. Qed.

Lemma sortIdentifiers_NoDup
    (compareSSIdentifiers : SSIdentifier → SSIdentifier → bool)
    (idents : list SSIdentifier) :
  NoDup (sortIdentifiers compareSSIdentifiers idents) ↔ NoDup idents.
Proof. unfold sortIdentifiers. by rewrite merge_sort_Permutation. Qed.

(** The cross-match step on a matched entry never drops an identifier of
    the entry; what it adds are valid identifiers of the reference entry
    under the Hipparcos, Bayer, Flamsteed and GCVS tags; and it leaves no
    duplicate where there was none. *)
Theorem crossMatchStar_identifiers
    (compareSSIdentifiers : SSIdentifier → SSIdentifier → bool)
    (nameMap : SSIdentifierNameMap) (gjACStars : SSObjectVec) (h : heap)
    (map map' : SSObjectMap) (l a : loc) (star acStar : SSStar) :
  star_at h l = Some star →
  SSIdentifierToObject (SSStar_getIdentifier (star_idents star) kCatGJ)
    map gjACStars = Some (ptr a, map') →
  star_at h a = Some acStar →
  ∃ (h' : heap) (merged : SSStar),
    crossMatchStar compareSSIdentifiers nameMap gjACStars h map (ptr l)
      = Some (h', map') ∧
    star_at h' l = Some merged ∧
    (∀ x, x ∈ star_idents star → x ∈ star_idents merged) ∧
    (∀ x, x ∈ star_idents merged →
       x ∈ star_idents star ∨
       x ∈ star_idents acStar ∧ ident_valid x = true ∧
       ident_catalog x ∈ [kCatHIP; kCatBayer; kCatFlamsteed; kCatGCVS]) ∧
    (NoDup (star_idents star) → NoDup (star_idents merged)).
Proof.
  intros Hstar Hfound HacStar.
  rewrite (crossMatchStar_matched_spec _ nameMap _ _ _ _ _ _ _ _
             Hstar Hfound HacStar).
  eexists _, _. split; [done|].
  unfold star_at. rewrite lookup_insert_eq. simpl. split; [done|].
  cbn [star_idents]. split_and!.
  - intros x Hx. apply sortIdentifiers_elem.
    by do 4 apply SSAddIdentifier_keeps.
  - intros x Hx%sortIdentifiers_elem.
    apply SSAddIdentifier_from in Hx as [Hx|(? & <- & ?)];
      [|right; split_and!; [done..|set_solver]].
    apply SSAddIdentifier_from in Hx as [Hx|(? & <- & ?)];
      [|right; split_and!; [done..|set_solver]].
    apply SSAddIdentifier_from in Hx as [Hx|(? & <- & ?)];
      [|right; split_and!; [done..|set_solver]].
    apply SSAddIdentifier_from in Hx as [Hx|(? & <- & ?)];
      [|right; split_and!; [done..|set_solver]].
    by left.
  - intros Hnd. apply sortIdentifiers_NoDup.
    by do 4 apply SSAddIdentifier_NoDup.
Qed.

Lemma crossMatchStar_identifiers_witness :
  ∃ (h' : heap) (merged : SSStar),
    crossMatchStar sampleCompare sampleNames [ptr 0] crossMatchHeap
      {[ mkIdentifier kCatGJ 10011 := 1 ]} (ptr 1)
      = Some (h', {[ mkIdentifier kCatGJ 10011 := 1 ]}) ∧
    star_at h' 1%nat = Some merged ∧
    (∀ x, x ∈ star_idents matchedStar → x ∈ star_idents merged) ∧
    (∀ x, x ∈ star_idents merged →
       x ∈ star_idents matchedStar ∨
       x ∈ star_idents accurateStar ∧ ident_valid x = true ∧
       ident_catalog x ∈ [kCatHIP; kCatBayer; kCatFlamsteed; kCatGCVS]) ∧
    (NoDup (star_idents matchedStar) → NoDup (star_idents merged)).
Proof.
  apply (crossMatchStar_identifiers sampleCompare sampleNames [ptr 0%nat]
           crossMatchHeap {[ mkIdentifier kCatGJ 10011 := 1 ]}
           {[ mkIdentifier kCatGJ 10011 := 1 ]} 1%nat 0%nat
           matchedStar accurateStar).
  - reflexivity.
  - vm_compute. reflexivity.
  - reflexivity.
Defined.

(** The outcomes of the cross-match step: the heap stays as it was, or
    the entry is replaced by a star. *)
Lemma crossMatchStar_cases
    (compareSSIdentifiers : SSIdentifier → SSIdentifier → bool)
    (nameMap : SSIdentifierNameMap) (gjACStars : SSObjectVec) (h h' : heap)
    (map map' : SSObjectMap) (p : SSObjectPtr) :
  crossMatchStar compareSSIdentifiers nameMap gjACStars h map p
    = Some (h', map') →
  h' = h ∨
  ∃ l star merged,
    p = ptr l ∧ h !! l = Some (ObjStar star) ∧
    h' = <[l := ObjStar merged]> h.
Proof.
  intros Hrun. destruct p as [|l].
  { left. unfold crossMatchStar in Hrun. simpl in Hrun. by injection Hrun as <-. }
  pose proof Hrun as Hstep.
  unfold crossMatchStar in Hstep. cbn [SSGetStarPtr] in Hstep.
  destruct (h !! l) as [[star|]|] eqn:Hl; simpl in Hstep; [| |done].
  2:{ left. by injection Hstep as <-. }
  assert (star_at h l = Some star) as Hstar.
  { unfold star_at. by rewrite Hl. }
  rewrite Hstar in Hstep. simpl in Hstep.
  destruct (SSIdentifierToObject _ map gjACStars) as [[found map1]|] eqn:Hfound;
    simpl in Hstep; [|done].
  destruct found as [|a].
  { rewrite (crossMatchStar_unmatched compareSSIdentifiers nameMap _ _ _ _ _ _
               Hstar Hfound) in Hrun. left. by injection Hrun as <-. }
  cbn [SSGetStarPtr] in Hstep.
  destruct (h !! a) as [[acStar|]|] eqn:Ha; simpl in Hstep; [| |done].
  - assert (star_at h a = Some acStar) as HacStar.
    { unfold star_at. by rewrite Ha. }
    rewrite (crossMatchStar_matched_spec compareSSIdentifiers nameMap _ _ _ _ _ _
               _ _ Hstar Hfound HacStar) in Hrun.
    right. injection Hrun as <- _. by eexists l, star, _.
  - rewrite SSIdentifiersToNames_nil in Hstep. simpl in Hstep.
    left. by injection Hstep as <-.
Qed.

(** The cross-match step changes no object but the entry it is applied
    to, and allocates and frees nothing. *)
Theorem crossMatchStar_frame
    (compareSSIdentifiers : SSIdentifier → SSIdentifier → bool)
    (nameMap : SSIdentifierNameMap) (gjACStars : SSObjectVec) (h h' : heap)
    (map map' : SSObjectMap) (p : SSObjectPtr) :
  crossMatchStar compareSSIdentifiers nameMap gjACStars h map p
    = Some (h', map') →
  (∀ x, p ≠ ptr x → h' !! x = h !! x) ∧ dom h' = dom h.
Proof.
  intros [->|(l & star & merged & -> & Hl & ->)]%crossMatchStar_cases;
    [done|].
  split.
  - intros x Hx. rewrite lookup_insert_ne; [done|congruence].
  - rewrite dom_insert_L. apply subseteq_union_1_L, singleton_subseteq_l.
    by eapply elem_of_dom_2.
Qed.

Lemma crossMatchStar_frame_witness :
  (∀ x, ptr 1%nat ≠ ptr x →
     (<[1%nat := ObjStar
          (mkStar ["Sirius"]
             [mkIdentifier kCatGJ 10011; mkIdentifier kCatHD 48915;
              mkIdentifier kCatHIP 323490]
             (mkSpherical 10%float 20%float 8.5%float)
             (mkSpherical 5%float 6%float 0.5%float)
             1.5%float 2%float "A1V")]> crossMatchHeap) !! x
     = crossMatchHeap !! x) ∧
  dom (<[1%nat := ObjStar
           (mkStar ["Sirius"]
              [mkIdentifier kCatGJ 10011; mkIdentifier kCatHD 48915;
               mkIdentifier kCatHIP 323490]
              (mkSpherical 10%float 20%float 8.5%float)
              (mkSpherical 5%float 6%float 0.5%float)
              1.5%float 2%float "A1V")]> crossMatchHeap)
    = dom crossMatchHeap.
Proof.
  apply (crossMatchStar_frame sampleCompare sampleNames [ptr 0%nat]
           crossMatchHeap _ {[ mkIdentifier kCatGJ 10011 := 1 ]}
           {[ mkIdentifier kCatGJ 10011 := 1 ]} (ptr 1%nat)).
  vm_compute. reflexivity.
Defined.

(** The cross-match pass over a collection changes the objects of the
    collection only, allocates and frees nothing, and leaves a star
    where there was one. *)
Lemma crossMatch_from_frame
    (compareSSIdentifiers : SSIdentifier → SSIdentifier → bool)
    (nameMap : SSIdentifierNameMap) (gjACStars stars : SSObjectVec)
    (h h' : heap) (map map' : SSObjectMap) (i : Z) :
  crossMatch_from compareSSIdentifiers nameMap gjACStars h map stars i
    = Some (h', map') →
  (∀ x, ptr x ∉ stars → h' !! x = h !! x) ∧ dom h' = dom h ∧
  (∀ x s, h !! x = Some (ObjStar s) → ∃ s', h' !! x = Some (ObjStar s')).
Proof.
  revert h map i. induction stars as [|p stars IH]; intros h map i Hrun.
  { simpl in Hrun. injection Hrun as <- _. split_and!; [done..|by eauto]. }
  cbn [crossMatch_from] in Hrun.
  destruct (crossMatchStar _ _ _ h map p) as [[h1 map1]|] eqn:Hstep;
    simpl in Hrun; [|done].
  destruct (int_add i 1) as [i'|]; simpl in Hrun; [|done].
  apply IH in Hrun as (Hframe & Hdom & Hstars).
  pose proof (crossMatchStar_cases _ _ _ _ _ _ _ _ Hstep) as Hcases.
  destruct Hcases as [->|(l & star & merged & -> & Hl & ->)].
  - split_and!; [|done..]. intros x Hx. apply Hframe.
    by apply not_elem_of_cons in Hx as [_ Hx].
  - split_and!.
    + intros x Hx. apply not_elem_of_cons in Hx as [Hne Hx].
      rewrite (Hframe _ Hx). rewrite lookup_insert_ne; [done|congruence].
    + rewrite Hdom, dom_insert_L.
      apply subseteq_union_1_L, singleton_subseteq_l.
      by eapply elem_of_dom_2.
    + intros x s Hx. destruct (decide (l = x)) as [->|Hne].
      * apply (Hstars x merged). by rewrite lookup_insert_eq.
      * apply (Hstars x s). by rewrite lookup_insert_ne.
Qed.

(** ** The reading loops *)

Lemma length_substr (str : string) (pos n : nat) :
  (String.length (substr str pos n) ≤ n)%nat.
Proof. rewrite <- length_chars, chars_substr, length_take. lia. Qed.

Lemma length_trim (str : string) :
  (String.length (trim str) ≤ String.length str)%nat.
Proof.
  destruct (chars_decompose (chars str)) as (l & core & r & Hstr & Hl & Hr & Hcore).
  rewrite <- !length_chars, (chars_trim_padded _ _ _ _ Hstr Hl Hr Hcore), Hstr.
  rewrite !length_app. lia.
Qed.

(** What an expansion adds, with the count it returns equal to the number
    of entries, for components that fit [int]. *)
Lemma addGJComponentStars_shape (fromString : string → SSIdentifier)
    (compareSSIdentifiers : SSIdentifier → SSIdentifier → bool)
    (h : heap) (l : loc) (star : SSStar) (strGJ comps : string)
    (stars : SSObjectVec) :
  star_at h l = Some star →
  Z.of_nat (String.length comps) ≤ INT_MAX →
  ∃ (h' : heap) (locs : list loc),
    addGJComponentStars fromString compareSSIdentifiers h (ptr l) strGJ
      comps stars
      = Some (Z.of_nat (length locs), h', stars ++ (ptr <$> locs)) ∧
    NoDup locs ∧
    (∀ x, x ∈ locs → h !! x = None) ∧
    (∀ x, x ∉ locs → h' !! x = h !! x) ∧
    (∀ x, x ∈ locs → ∃ s, h' !! x = Some (ObjStar s)).
Proof.
  intros Hstar Hfit.
  destruct (addGJComponentStars_spec fromString compareSSIdentifiers
              h l star strGJ comps stars Hstar)
    as (h' & locs & Hrun & Hnd & Hfree & Hframe & Hall).
  exists h', locs. split_and!; try done.
  - rewrite Hrun. do 2 f_equal.
    apply Forall2_length in Hall. rewrite Hall.
    destruct (decide _); [done|].
    by rewrite length_fmap, length_chars, int_of_size_fits.
  - intros x [i Hi]%list_elem_of_lookup.
    destruct (Forall2_lookup_l _ _ _ _ _ Hall Hi) as (strC & _ & Hx).
    by eexists.
Qed.

(** What the reading loop of [SSImportGJCNS3] leaves: the entries that
    were there, then new ones, as many as the count has grown; the new
    entries are distinct stars at locations that were free, and the
    objects that existed are as they were. *)
Lemma readCNS3_shape (fromString : string → SSIdentifier)
    (compareSSIdentifiers : SSIdentifier → SSIdentifier → bool)
    (cns3Star : string → SSStar) (lines : list string) :
  ∀ (numStars n : Z) (h h' : heap) (stars stars' : SSObjectVec),
    readCNS3 fromString compareSSIdentifiers cns3Star lines numStars h stars
      = Some (n, h', stars') →
    ∃ new : list loc,
      stars' = stars ++ (ptr <$> new) ∧
      n = numStars + Z.of_nat (length new) ∧
      NoDup new ∧
      (∀ x, x ∈ new → h !! x = None) ∧
      (∀ x, x ∈ new → ∃ s, h' !! x = Some (ObjStar s)) ∧
      (∀ x, is_Some (h !! x) → h' !! x = h !! x).
Proof.
  induction lines as [|line rest IH]; intros numStars n h h' stars stars' Hrun.
  { simpl in Hrun. injection Hrun as <- <- <-. exists [].
    rewrite app_nil_r. split_and!; [done|simpl; lia|constructor| | |done];
      by intros x ?%elem_of_nil. }
  cbn [readCNS3] in Hrun.
  destruct (decide (String.length line < 119)%nat); [by eapply IH|].
  destruct (string_empty _ || string_empty _); [by eapply IH|].
  unfold heap_new in Hrun.
  set (p := fresh (dom h)) in *.
  set (h1 := <[p := ObjStar (cns3Star line)]> h) in *.
  assert (h !! p = None) as Hp by apply fresh_unallocated.
  destruct (addGJComponentStars_shape fromString compareSSIdentifiers h1 p
              (cns3Star line) (trim (substr line 2 6))
              (trim (substr line 8 2)) stars)
    as (h2 & locs & Hadd & Hnd & Hfree & Hframe & Hstars).
  { unfold star_at, h1. by rewrite lookup_insert_eq. }
  { pose proof (length_trim (substr line 8 2)).
    pose proof (length_substr line 8 2). unfold INT_MAX. lia. }
  rewrite Hadd in Hrun. cbn [mbind option_bind] in Hrun.
  destruct (int_add numStars (Z.of_nat (length locs))) as [n1|] eqn:Hn1;
    cbn [mbind option_bind] in Hrun; [|done].
  apply int_add_inv in Hn1 as [-> _].
  apply IH in Hrun as (new & -> & -> & Hnd2 & Hfree2 & Hstars2 & Hframe2).
  assert (∀ x, x ∈ locs → x ∉ new) as Hdisj.
  { intros x Hx Hx2. apply Hfree2 in Hx2.
    destruct (Hstars _ Hx) as [s Hs]. congruence. }
  exists (locs ++ new). split_and!.
  - by rewrite fmap_app, app_assoc.
  - rewrite length_app. lia.
  - apply NoDup_app. split_and!; done.
  - intros x [Hx|Hx]%elem_of_app.
    + apply Hfree in Hx. unfold h1 in Hx.
      rewrite lookup_insert in Hx. by case_decide.
    + assert (x ∉ locs) as Hx' by (intros ?; by eapply Hdisj).
      apply Hfree2 in Hx. rewrite (Hframe _ Hx') in Hx.
      unfold h1 in Hx. rewrite lookup_insert in Hx. by case_decide.
  - intros x [Hx|Hx]%elem_of_app; [|by apply Hstars2].
    destruct (Hstars _ Hx) as [s Hs].
    rewrite Hframe2; [by eexists|by eexists].
  - intros x Hx.
    assert (x ≠ p) as Hne by (intros ->; rewrite Hp in Hx; by destruct Hx).
    assert (h1 !! x = h !! x) as H1 by (unfold h1; by rewrite lookup_insert_ne).
    assert (x ∉ locs) as Hx'.
    { intros Hin. apply Hfree in Hin. rewrite H1 in Hin.
      rewrite Hin in Hx. by destruct Hx. }
    rewrite Hframe2; rewrite (Hframe _ Hx'), H1; done.
Qed.

(** The import from the CNS3 file, read off the two loops. *)
Lemma SSImportGJCNS3_shape (fromString : string → SSIdentifier)
    (compareSSIdentifiers : SSIdentifier → SSIdentifier → bool)
    (openFile : string → option (list string)) (cns3Star : string → SSStar)
    (filename : string) (nameMap : SSIdentifierNameMap)
    (gjACStars stars stars' : SSObjectVec) (h h' : heap) (n : Z) :
  SSImportGJCNS3 fromString compareSSIdentifiers openFile cns3Star filename
    nameMap gjACStars h stars = Some (n, h', stars') →
  ∃ new : list loc,
    stars' = stars ++ (ptr <$> new) ∧
    n = Z.of_nat (length new) ∧
    NoDup new ∧
    (∀ x, x ∈ new → h !! x = None) ∧
    (∀ x, x ∈ new → ∃ s, h' !! x = Some (ObjStar s)) ∧
    (∀ x, is_Some (h !! x) → ptr x ∉ stars → h' !! x = h !! x).
Proof.
  unfold SSImportGJCNS3. intros Hrun.
  destruct (openFile filename) as [lines|].
  2:{ injection Hrun as <- <- <-. exists []. rewrite app_nil_r.
      split_and!; [done|done|constructor| | |done];
        by intros x ?%elem_of_nil. }
  destruct (readCNS3 _ _ _ lines 0 h stars) as [[[n1 h1] stars1]|] eqn:Hread;
    simpl in Hrun; [|done].
  destruct (SSMakeObjectMap h1 gjACStars kCatGJ) as [map|];
    simpl in Hrun; [|done].
  destruct (crossMatch_from _ _ _ h1 map stars1 0) as [[h2 map2]|] eqn:Hcross;
    simpl in Hrun; [|done].
  injection Hrun as <- <- <-.
  apply readCNS3_shape in Hread
    as (new & -> & -> & Hnd & Hfree & Hstars & Hframe).
  apply crossMatch_from_frame in Hcross as (Hframe2 & _ & Hstars2).
  exists new. split_and!; try done.
  - intros x Hx. destruct (Hstars _ Hx) as [s Hs]. by eapply Hstars2.
  - intros x Hx Hnot. rewrite Hframe2; [by apply Hframe|].
    intros [Hin|Hin]%elem_of_app; [done|].
    apply list_elem_of_fmap in Hin as (y & [= <-] & Hy).
    apply Hfree in Hy. rewrite Hy in Hx. by destruct Hx.
Qed.

(** [SSImportGJCNS3] only appends: the entries the collection held stay
    at their positions, and the count returned is the number of entries
    added.  The added entries are distinct, newly allocated stars. *)
Theorem SSImportGJCNS3_appends (fromString : string → SSIdentifier)
    (compareSSIdentifiers : SSIdentifier → SSIdentifier → bool)
    (openFile : string → option (list string)) (cns3Star : string → SSStar)
    (filename : string) (nameMap : SSIdentifierNameMap)
    (gjACStars stars stars' : SSObjectVec) (h h' : heap) (n : Z) :
  SSImportGJCNS3 fromString compareSSIdentifiers openFile cns3Star filename
    nameMap gjACStars h stars = Some (n, h', stars') →
  ∃ new : list loc,
    stars' = stars ++ (ptr <$> new) ∧
    n = Z.of_nat (length new) ∧
    NoDup new ∧
    ∀ x, x ∈ new → h !! x = None ∧ ∃ s, h' !! x = Some (ObjStar s).
Proof.
  intros (new & Hout & Hn & Hnd & Hfree & Hstars & _)%SSImportGJCNS3_shape.
  exists new. split_and!; try done. intros x Hx. split; auto.
Qed.

Lemma SSImportGJCNS3_appends_witness :
  ∃ h' : heap,
    SSImportGJCNS3 sampleFromString sampleCompare sampleFiles sampleStar
      "cns3.dat" sampleNames [ptr 0] accurateHeap [ptr 0]
      = Some (2, h', [ptr 0; ptr 2; ptr 3]) ∧
    ∃ new : list loc,
      [ptr 0; ptr 2; ptr 3] = [ptr 0] ++ (ptr <$> new) ∧
      2 = Z.of_nat (length new) ∧
      NoDup new ∧
      ∀ x, x ∈ new →
        accurateHeap !! x = None ∧ ∃ s, h' !! x = Some (ObjStar s).
Proof.
  eexists. split; [vm_compute; reflexivity|].
  apply (SSImportGJCNS3_appends sampleFromString sampleCompare sampleFiles
           sampleStar "cns3.dat" sampleNames [ptr 0] [ptr 0]).
  vm_compute; reflexivity.
Defined.

(** [SSImportGJCNS3] changes no object that existed before the call and
    is not an entry of the collection it fills: reference entries that
    are kept apart are read, never written. *)
Theorem SSImportGJCNS3_frame (fromString : string → SSIdentifier)
    (compareSSIdentifiers : SSIdentifier → SSIdentifier → bool)
    (openFile : string → option (list string)) (cns3Star : string → SSStar)
    (filename : string) (nameMap : SSIdentifierNameMap)
    (gjACStars stars stars' : SSObjectVec) (h h' : heap) (n : Z) (x : loc) :
  SSImportGJCNS3 fromString compareSSIdentifiers openFile cns3Star filename
    nameMap gjACStars h stars = Some (n, h', stars') →
  is_Some (h !! x) → ptr x ∉ stars →
  h' !! x = h !! x.
Proof.
  intros (new & _ & _ & _ & _ & _ & Hframe)%SSImportGJCNS3_shape. apply Hframe.
Qed.

Lemma SSImportGJCNS3_frame_witness :
  ∃ h' : heap,
    SSImportGJCNS3 sampleFromString sampleCompare sampleFiles sampleStar
      "cns3.dat" sampleNames [ptr 0] accurateHeap []
      = Some (2, h', [ptr 2; ptr 3]) ∧
    h' !! 0%nat = accurateHeap !! 0%nat.
Proof.
  eexists. split; [vm_compute; reflexivity|].
  apply (SSImportGJCNS3_frame sampleFromString sampleCompare sampleFiles
           sampleStar "cns3.dat" sampleNames [ptr 0] [] [ptr 2; ptr 3]
           accurateHeap _ 2 0%nat).
  - vm_compute; reflexivity.
  - by eexists.
  - by intros ?%elem_of_nil.
Defined.

(** ** The accurate-coordinates file *)

Lemma find_first_of_ge (s set : list ascii) (i p : nat) :
  find_first_of s set i = Some p → (i ≤ p)%nat.
Proof.
  revert i. induction s as [|c s IH]; intros i; simpl; [done|].
  case_bool_decide; [intros [= <-]; lia|]. intros ?%IH. lia.
Qed.

Lemma length_substr_le (str : string) (pos n : nat) :
  (String.length (substr str pos n) ≤ String.length str)%nat.
Proof.
  rewrite <- !length_chars, chars_substr, length_take, length_drop. lia.
Qed.

(** The components never outnumber the characters of the designation. *)
Lemma splitComponents_length (strGJ strGJ' comps : string) :
  splitComponents strGJ = Some (strGJ', comps) →
  (String.length comps ≤ String.length strGJ)%nat.
Proof.
  unfold splitComponents.
  destruct (find_first_of _ _ 0) as [pos1|]; [|intros [= <- <-]; simpl; lia].
  case_decide; [done|]. intros [= <- <-].
  etrans; [apply length_trim|apply length_substr_le].
Qed.

(** The split faults exactly on a designation that starts with a
    component letter. *)
Lemma splitComponents_None (strGJ : string) :
  splitComponents strGJ = None ↔
  ∃ c rest, strGJ = String c rest ∧ c ∈ chars "ABCD".
Proof.
  unfold splitComponents. split.
  - destruct strGJ as [|c rest]; [done|].
    cbn [chars list_ascii_of_string find_first_of].
    case_bool_decide as Hc.
    + intros _. by exists c, rest.
    + destruct (find_first_of _ _ 1) as [pos1|] eqn:Hpos; [|done].
      apply find_first_of_ge in Hpos. case_decide; [lia|done].
  - intros (c & rest & -> & Hc).
    cbn [chars list_ascii_of_string find_first_of].
    rewrite bool_decide_eq_true_2 by done. by case_decide.
Qed.

(** What the reading loop of [SSImportGJAC] leaves: the entries that were
    there, then new ones, as many as the count has grown; the new entries
    are distinct stars at locations that were free, and the objects that
    existed are as they were. *)
Lemma readGJAC_shape (fromString : string → SSIdentifier)
    (compareSSIdentifiers : SSIdentifier → SSIdentifier → bool)
    (gjacAngles : string → float * float * float * float)
    (hipDistance : SSStar → float) (hipStars : SSObjectVec)
    (lines : list string) :
  ∀ (numStars n : Z) (map : SSObjectMap) (h h' : heap)
    (stars stars' : SSObjectVec),
    readGJAC fromString compareSSIdentifiers gjacAngles hipDistance hipStars
      lines numStars map h stars = Some (n, h', stars') →
    ∃ new : list loc,
      stars' = stars ++ (ptr <$> new) ∧
      n = numStars + Z.of_nat (length new) ∧
      NoDup new ∧
      (∀ x, x ∈ new → h !! x = None) ∧
      (∀ x, x ∈ new → ∃ s, h' !! x = Some (ObjStar s)) ∧
      (∀ x, is_Some (h !! x) → h' !! x = h !! x).
Proof.
  induction lines as [|line rest IH];
    intros numStars n map h h' stars stars' Hrun.
  { simpl in Hrun. injection Hrun as <- <- <-. exists [].
    rewrite app_nil_r. split_and!; [done|simpl; lia|constructor| | |done];
      by intros x ?%elem_of_nil. }
  cbn [readGJAC] in Hrun.
  destruct (decide (String.length line < 124)%nat); [by eapply IH|].
  destruct (splitComponents _) as [[strGJ comps]|] eqn:Hsplit;
    cbn [mbind option_bind] in Hrun; [|done].
  destruct (string_empty _ || string_empty _); [by eapply IH|].
  destruct (gjacAngles line) as [[[ra dec] pmRA] pmDec].
  destruct (SSIdentifierToObject _ map hipStars) as [[found map1]|];
    cbn [mbind option_bind] in Hrun; [|done].
  destruct (SSGetStarPtr h found) as [pHIPStar|];
    cbn [mbind option_bind] in Hrun; [|done].
  match type of Hrun with
  | context [mbind _ ?m] =>
      destruct m as [[[[[coords motion] vmag] bmag] idents]|]
  end; cbn [mbind option_bind] in Hrun; [|done].
  unfold heap_new in Hrun.
  set (star0 := mkStar _ _ _ _ _ _ _) in Hrun.
  set (p := fresh (dom h)) in *.
  set (h1 := <[p := ObjStar star0]> h) in *.
  assert (h !! p = None) as Hp by apply fresh_unallocated.
  destruct (addGJComponentStars_shape fromString compareSSIdentifiers h1 p
              star0 strGJ comps stars)
    as (h2 & locs & Hadd & Hnd & Hfree & Hframe & Hstars).
  { unfold star_at, h1. by rewrite lookup_insert_eq. }
  { apply splitComponents_length in Hsplit.
    pose proof (length_trim (substr line 2 20)).
    pose proof (length_substr line 2 20). unfold INT_MAX. lia. }
  rewrite Hadd in Hrun. cbn [mbind option_bind] in Hrun.
  destruct (int_add numStars (Z.of_nat (length locs))) as [n1|] eqn:Hn1;
    cbn [mbind option_bind] in Hrun; [|done].
  apply int_add_inv in Hn1 as [-> _].
  apply IH in Hrun as (new & -> & -> & Hnd2 & Hfree2 & Hstars2 & Hframe2).
  assert (∀ x, x ∈ locs → x ∉ new) as Hdisj.
  { intros x Hx Hx2. apply Hfree2 in Hx2.
    destruct (Hstars _ Hx) as [s Hs]. congruence. }
  exists (locs ++ new). split_and!.
  - by rewrite fmap_app, app_assoc.
  - rewrite length_app. lia.
  - apply NoDup_app. split_and!; done.
  - intros x [Hx|Hx]%elem_of_app.
    + apply Hfree in Hx. unfold h1 in Hx.
      rewrite lookup_insert in Hx. by case_decide.
    + assert (x ∉ locs) as Hx' by (intros ?; by eapply Hdisj).
      apply Hfree2 in Hx. rewrite (Hframe _ Hx') in Hx.
      unfold h1 in Hx. rewrite lookup_insert in Hx. by case_decide.
  - intros x [Hx|Hx]%elem_of_app; [|by apply Hstars2].
    destruct (Hstars _ Hx) as [s Hs].
    rewrite Hframe2; [by eexists|by eexists].
  - intros x Hx.
    assert (x ≠ p) as Hne by (intros ->; rewrite Hp in Hx; by destruct Hx).
    assert (h1 !! x = h !! x) as H1 by (unfold h1; by rewrite lookup_insert_ne).
    assert (x ∉ locs) as Hx'.
    { intros Hin. apply Hfree in Hin. rewrite H1 in Hin.
      rewrite Hin in Hx. by destruct Hx. }
    rewrite Hframe2; rewrite (Hframe _ Hx'), H1; done.
Qed.

(** A line whose designation starts with a component letter stops the
    reading loop of [SSImportGJAC], wherever it stands in the file. *)
Lemma readGJAC_fault (fromString : string → SSIdentifier)
    (compareSSIdentifiers : SSIdentifier → SSIdentifier → bool)
    (gjacAngles : string → float * float * float * float)
    (hipDistance : SSStar → float) (hipStars : SSObjectVec)
    (lines : list string) (line : string) :
  line ∈ lines →
  (124 ≤ String.length line)%nat →
  splitComponents (trim (substr line 2 20)) = None →
  ∀ (numStars : Z) (map : SSObjectMap) (h : heap) (stars : SSObjectVec),
    readGJAC fromString compareSSIdentifiers gjacAngles hipDistance hipStars
      lines numStars map h stars = None.
Proof.
  intros Hin Hlen Hsplit.
  induction lines as [|line' rest IH]; intros numStars map h stars.
  { by apply elem_of_nil in Hin. }
  cbn [readGJAC].
  destruct (decide (line' = line)) as [->|Hne].
  { destruct (decide _); [lia|]. by rewrite Hsplit. }
  assert (line ∈ rest) as Hrest.
  { apply elem_of_cons in Hin as [->|?]; done. }
  specialize (IH Hrest).
  destruct (decide _); [apply IH|].
  destruct (splitComponents (trim (substr line' 2 20)))
    as [[strGJ comps]|]; [|done].
  cbn [mbind option_bind].
  destruct (string_empty _ || string_empty _); [apply IH|].
  destruct (gjacAngles line') as [[[ra dec] pmRA] pmDec].
  destruct (SSIdentifierToObject _ map hipStars) as [[found map1]|]; [|done].
  cbn [mbind option_bind].
  destruct (SSGetStarPtr h found) as [pHIPStar|]; [|done].
  cbn [mbind option_bind].
  match goal with
  | |- context [mbind _ ?m] =>
      destruct m as [[[[[coords motion] vmag] bmag] idents]|]
  end; [|done].
  cbn [mbind option_bind]. unfold heap_new.
  destruct (addGJComponentStars _ _ _ _ _ _ _) as [[[cnt h2] stars2]|]; [|done].
  cbn [mbind option_bind].
  destruct (int_add numStars cnt) as [n1|]; [|done].
  cbn [mbind option_bind]. apply IH.
Qed.

(** [SSImportGJAC] only appends, and writes to no object that existed
    before the call: the entries the collection held stay at their
    positions, the count returned is the number of entries added, the
    added entries are distinct, newly allocated stars, and the Hipparcos
    entries it looks up are as they were. *)
Theorem SSImportGJAC_appends (fromString : string → SSIdentifier)
    (compareSSIdentifiers : SSIdentifier → SSIdentifier → bool)
    (openFile : string → option (list string))
    (gjacAngles : string → float * float * float * float)
    (hipDistance : SSStar → float) (filename : string)
    (hipStars stars stars' : SSObjectVec) (h h' : heap) (n : Z) :
  SSImportGJAC fromString compareSSIdentifiers openFile gjacAngles hipDistance
    filename hipStars h stars = Some (n, h', stars') →
  ∃ new : list loc,
    stars' = stars ++ (ptr <$> new) ∧
    n = Z.of_nat (length new) ∧
    NoDup new ∧
    (∀ x, x ∈ new → h !! x = None ∧ ∃ s, h' !! x = Some (ObjStar s)) ∧
    (∀ x, is_Some (h !! x) → h' !! x = h !! x).
Proof.
  unfold SSImportGJAC. intros Hrun.
  destruct (openFile filename) as [lines|].
  2:{ injection Hrun as <- <- <-. exists []. rewrite app_nil_r.
      split_and!; [done|done|constructor| |done].
      by intros x ?%elem_of_nil. }
  destruct (SSMakeObjectMap h hipStars kCatHIP) as [map|];
    simpl in Hrun; [|done].
  apply readGJAC_shape in Hrun
    as (new & -> & -> & Hnd & Hfree & Hstars & Hframe).
  exists new. split_and!; try done. intros x Hx. split; auto.
Qed.

Lemma SSImportGJAC_appends_witness :
  ∃ h' : heap,
    SSImportGJAC sampleFromString sampleCompare gjacFiles sampleAngles
      sampleDistance "gjac.dat" [ptr 0] accurateHeap [ptr 0]
      = Some (2, h', [ptr 0; ptr 2; ptr 3]) ∧
    ∃ new : list loc,
      [ptr 0; ptr 2; ptr 3] = [ptr 0] ++ (ptr <$> new) ∧
      2 = Z.of_nat (length new) ∧
      NoDup new ∧
      (∀ x, x ∈ new →
         accurateHeap !! x = None ∧ ∃ s, h' !! x = Some (ObjStar s)) ∧
      (∀ x, is_Some (accurateHeap !! x) → h' !! x = accurateHeap !! x).
Proof.
  eexists. split; [vm_compute; reflexivity|].
  apply (SSImportGJAC_appends sampleFromString sampleCompare gjacFiles
           sampleAngles sampleDistance "gjac.dat" [ptr 0] [ptr 0]).
  vm_compute; reflexivity.
Defined.

(** [SSImportGJAC] does not return when the file has a line of 124
    characters or more whose designation, columns 3 to 22 trimmed,
    starts with one of the letters A, B, C, D: the component letters are
    taken from one character before the first such letter, and [substr]
    throws past the end of the string. *)
Theorem SSImportGJAC_component_fault (fromString : string → SSIdentifier)
    (compareSSIdentifiers : SSIdentifier → SSIdentifier → bool)
    (openFile : string → option (list string))
    (gjacAngles : string → float * float * float * float)
    (hipDistance : SSStar → float) (filename : string)
    (hipStars stars : SSObjectVec) (h : heap)
    (lines : list string) (line : string) (c : ascii) (rest : string) :
  openFile filename = Some lines →
  line ∈ lines →
  (124 ≤ String.length line)%nat →
  trim (substr line 2 20) = String c rest →
  c ∈ chars "ABCD" →
  SSImportGJAC fromString compareSSIdentifiers openFile gjacAngles hipDistance
    filename hipStars h stars = None.
Proof.
  intros Hopen Hin Hlen Hname Hc. unfold SSImportGJAC. rewrite Hopen.
  destruct (SSMakeObjectMap h hipStars kCatHIP) as [map|]; [|done].
  cbn [mbind option_bind].
  apply (readGJAC_fault _ _ _ _ _ _ line); [done..|].
  apply splitComponents_None. by exists c, rest.
Qed.

Lemma SSImportGJAC_component_fault_witness :
  gjacFiles "bad.dat" = Some [""; gjacLine; gjacBadLine] ∧
  SSImportGJAC sampleFromString sampleCompare gjacFiles sampleAngles
    sampleDistance "bad.dat" [ptr 0] accurateHeap [] = None.
Proof.
  split; [reflexivity|].
  apply (SSImportGJAC_component_fault sampleFromString sampleCompare gjacFiles
           sampleAngles sampleDistance "bad.dat" [ptr 0] [] accurateHeap
           [""; gjacLine; gjacBadLine] gjacBadLine "A" " 1001").
  - reflexivity.
  - set_solver.
  - vm_compute. lia.
  - vm_compute. reflexivity.
  - vm_compute. set_solver.
Defined.

(** The reading loop of [SSImportGJCNS3] passes over the lines that are
    too short or lack a position. *)
Lemma readCNS3_filter (fromString : string → SSIdentifier)
    (compareSSIdentifiers : SSIdentifier → SSIdentifier → bool)
    (cns3Star : string → SSStar) (lines : list string) :
  ∀ (numStars : Z) (h : heap) (stars : SSObjectVec),
    readCNS3 fromString compareSSIdentifiers cns3Star lines numStars h stars
    = readCNS3 fromString compareSSIdentifiers cns3Star
        (filter (λ line, cns3_usable line) lines) numStars h stars.
Proof.
  induction lines as [|line rest IH]; intros numStars h stars; [done|].
  destruct (decide (String.length line < 119)%nat) as [Hshort|Hlong].
  { rewrite filter_cons_False.
    - cbn [readCNS3]. rewrite decide_True by done. apply IH.
    - unfold cns3_usable. rewrite bool_decide_eq_false_2 by lia. simpl. tauto. }
  destruct (string_empty (trim (substr line 12 8))
            || string_empty (trim (substr line 21 8))) eqn:Hblank.
  { rewrite filter_cons_False.
    - cbn [readCNS3]. rewrite decide_False by done. rewrite Hblank. apply IH.
    - unfold cns3_usable. rewrite Hblank, andb_false_r. simpl. tauto. }
  rewrite filter_cons_True.
  2:{ unfold cns3_usable.
      rewrite bool_decide_eq_true_2 by lia. by rewrite Hblank. }
  cbn [readCNS3]. rewrite Hblank.
  destruct (decide (String.length line < 119)%nat); [done|].
  unfold heap_new.
  destruct (addGJComponentStars _ _ _ _ _ _ _) as [[[cnt h2] stars2]|]; [|done].
  cbn [mbind option_bind].
  destruct (int_add numStars cnt) as [n1|]; [|done].
  cbn [mbind option_bind]. apply IH.
Qed.

(** [SSImportGJCNS3] takes nothing from the lines shorter than 119
    characters and from the lines without right ascension or
    declination: the import of a file and the import of the file without
    those lines give the same count, the same collection and the same
    objects. *)
Theorem SSImportGJCNS3_skips (fromString : string → SSIdentifier)
    (compareSSIdentifiers : SSIdentifier → SSIdentifier → bool)
    (openFile openFile' : string → option (list string))
    (cns3Star : string → SSStar) (filename filename' : string)
    (nameMap : SSIdentifierNameMap) (gjACStars stars : SSObjectVec)
    (h : heap) (lines : list string) :
  openFile filename = Some lines →
  openFile' filename' = Some (filter (λ line, cns3_usable line) lines) →
  SSImportGJCNS3 fromString compareSSIdentifiers openFile cns3Star filename
    nameMap gjACStars h stars
  = SSImportGJCNS3 fromString compareSSIdentifiers openFile' cns3Star filename'
      nameMap gjACStars h stars.
Proof.
  intros Hopen Hopen'. unfold SSImportGJCNS3. rewrite Hopen, Hopen'.
  by rewrite readCNS3_filter.
Qed.

Lemma SSImportGJCNS3_skips_witness :
  SSImportGJCNS3 sampleFromString sampleCompare paddedFiles sampleStar
    "cns3.txt" sampleNames [ptr 0] accurateHeap []
  = SSImportGJCNS3 sampleFromString sampleCompare sampleFiles sampleStar
      "cns3.dat" sampleNames [ptr 0] accurateHeap [].
Proof.
  apply (SSImportGJCNS3_skips sampleFromString sampleCompare paddedFiles
           sampleFiles sampleStar "cns3.txt" "cns3.dat" sampleNames [ptr 0] []
           accurateHeap ["# CNS3"; sampleLine; ""]).
  - reflexivity.
  - vm_compute. reflexivity.
Defined.
